(** * Column configuration engine of the project tree table

    A shallow embedding of
    [shared/src/containers/ProjectTreeTable/buildTreeTableColumns.tsx]
    (the sort strategies used by the column builder) and of the
    [ColumnSettingsProvider] that follows it in the same file (the layout
    store: visibility, pinning, order and the debounced sizing).

    JavaScript numbers that the code uses as comparator results, indices and
    widths are integers here ([Z]); objects used as dictionaries are [gmap]s
    keyed by column id; arrays are lists. *)

From Stdlib Require Import ZArith Lia.
From stdpp Require Import base option list gmap strings.

Open Scope string_scope.
Open Scope list_scope.
Open Scope Z_scope.

(** ** JavaScript helpers used by the source *)

Module Js.

(** Values found in table cells and enum options.  Arrays and objects are
    only ever compared by identity by [===], hence [VRef]. *)
Inductive Value :=
| VUndefined
| VNull
| VBool (b : bool)
| VNum (n : Z)
| VStr (s : string)
| VRef (addr : nat).

#[global] Instance Value_eq_dec : EqDecision Value.
Proof. solve_decision. Defined.

(** [a === b] *)
Definition strict_eq (a b : Value) : bool := bool_decide (a = b).

(** [arr.includes(x)] on an array of strings *)
Definition includes (arr : list string) (x : string) : bool :=
  bool_decide (x ∈ arr).

(** [arr.findIndex(p)]: the first index whose element satisfies [p],
    [-1] when there is none. *)
Fixpoint findIndex_from {A} (p : A → bool) (i : Z) (arr : list A) : Z :=
  match arr with
  | [] => -1
  | x :: rest => if p x then i else findIndex_from p (i + 1) rest
  end.

Definition findIndex {A} (p : A → bool) (arr : list A) : Z :=
  findIndex_from p 0 arr.

(** [arr.indexOf(x)] *)
Definition indexOf (arr : list string) (x : string) : Z :=
  findIndex (λ y, bool_decide (y = x)) arr.

(** [arr[i]] for an integer [i]: [undefined] out of range, also for a
    negative index. *)
Definition at_index {A} (arr : list A) (i : Z) : option A :=
  if bool_decide (i < 0) then None else arr !! Z.to_nat i.

(** [arr.splice(start, 0, x)]: insertion of [x] at [start], where a
    negative [start] counts from the end and everything is clamped to the
    bounds of the array. *)
Definition splice_insert {A} (start : Z) (x : A) (arr : list A) : list A :=
  let len := Z.of_nat (length arr) in
  let k := if bool_decide (start < 0) then Z.max (len + start) 0
           else Z.min start len in
  take (Z.to_nat k) arr ++ x :: drop (Z.to_nat k) arr.

(** [arr.sort(cmp)].  The language requires the sort to be stable; the
    model is a stable insertion sort: an element stays in front of
    everything that followed it unless the comparator says it is greater. *)
Fixpoint sort_insert {A} (cmp : A → A → Z) (x : A) (sorted : list A) : list A :=
  match sorted with
  | [] => [x]
  | y :: rest =>
      if bool_decide (cmp x y ≤ 0) then x :: y :: rest
      else y :: sort_insert cmp x rest
  end.

Fixpoint sort {A} (cmp : A → A → Z) (arr : list A) : list A :=
  match arr with
  | [] => []
  | x :: rest => sort_insert cmp x (sort cmp rest)
  end.

(** [forEach((x, i) => ...)] threading the state the callback mutates. *)
Fixpoint forEach_from {A S} (f : S → A → Z → S) (i : Z) (arr : list A) (st : S) : S :=
  match arr with
  | [] => st
  | x :: rest => forEach_from f (i + 1) rest (f st x i)
  end.

Definition forEach {A S} (f : S → A → Z → S) (arr : list A) (st : S) : S :=
  forEach_from f 0 arr st.

End Js.

(** ** Rows and attributes *)

(** The part of [TableRow] that the sort strategies read. *)
Record TableRow := {
  name : string;
  label : option string;
  path : option string;
  isLoading : option bool;
  attrib : gmap string Js.Value;
}.

(** A row of the table library: the row model wraps the data row. *)
Record Row := { id : string; original : TableRow }.

Record EnumOption := { value : Js.Value; optionLabel : string }.

(** [AttributeData]: only [type] and [enum] matter for sorting; both are
    optional in the source. *)
Record AttributeData := {
  type : option string;
  enum : option (list EnumOption);
}.

Definition SortingFn := Row → Row → string → Z.

(** ** Sort strategies *)

Section SortStrategies.

(** Imported and not part of this file: [getCellValue] of
    [utils/cellUtils], the table library's [sortingFns.datetime] and
    [sortingFns.alphanumeric], and [String.prototype.localeCompare]. *)
Variable getCellValue : TableRow → string → Js.Value.
Variable sortingFns_datetime : SortingFn.
Variable sortingFns_alphanumeric : SortingFn.
Variable localeCompare : string → string → Z.

(** [flag ? ... : ...] on an optional boolean *)
Definition truthy_flag (flag : option bool) : bool :=
  match flag with Some true => true | _ => false end.

(** [s || fallback] on an optional string: [undefined] and the empty
    string are falsy. *)
Definition or_string (s : option string) (fallback : string) : string :=
  match s with
  | Some s' => if bool_decide (s' = "") then fallback else s'
  | None => fallback
  end.

Definition withLoadingStateSort (sortFn : SortingFn) : SortingFn :=
  λ rowA rowB columnId,
    if bool_decide (isLoading (original rowA) ≠ isLoading (original rowB))
    then (if truthy_flag (isLoading (original rowA)) then 1 else -1)
    else sortFn rowA rowB columnId.

Definition nameSort : SortingFn :=
  λ rowA rowB _,
    let labelA := or_string (label (original rowA)) (name (original rowA)) in
    let labelB := or_string (label (original rowB)) (name (original rowB)) in
    localeCompare labelA labelB.

Definition pathSort : SortingFn :=
  λ rowA rowB _,
    let labelA := or_string (path (original rowA)) (name (original rowA)) in
    let labelB := or_string (path (original rowB)) (name (original rowB)) in
    localeCompare labelA labelB.

Definition attribSort (rowA rowB : Row) (columnId : string)
    (attrib : option AttributeData) : Z :=
  let valueA := getCellValue (original rowA) columnId in
  let valueB := getCellValue (original rowB) columnId in
  match attrib ≫= enum with
  | Some options =>
      let indexA := Js.findIndex (λ o, Js.strict_eq (value o) valueA) options in
      let indexB := Js.findIndex (λ o, Js.strict_eq (value o) valueB) options in
      if bool_decide (indexA - indexB < 0) then 1 else -1
  | None =>
      if bool_decide (attrib ≫= type = Some "datetime") then
        sortingFns_datetime rowA rowB columnId
      else if bool_decide (attrib ≫= type = Some "boolean") then
        let boolA := if Js.strict_eq valueA (Js.VBool true) then 1 else 0 in
        let boolB := if Js.strict_eq valueB (Js.VBool true) then 1 else 0 in
        boolA - boolB
      else
        sortingFns_alphanumeric rowA rowB columnId
  end.

(** The [sortingFn] the builder gives to the column of an attribute. *)
Definition attribColumn_sortingFn (data : AttributeData) : SortingFn :=
  withLoadingStateSort (λ a b c, attribSort a b c (Some data)).

(** The [sortingFn] of the [status] column. *)
Definition statusColumn_sortingFn (status : list EnumOption) : SortingFn :=
  withLoadingStateSort
    (λ a b c, attribSort a b c (Some {| type := Some "string"; enum := Some status |})).

(** The [sortingFn] of the [name] column. *)
Definition nameColumn_sortingFn (showHierarchy : bool) : SortingFn :=
  withLoadingStateSort (if showHierarchy then nameSort else pathSort).

(** The index of a row's value in the declared options. *)
Definition enumIndex (options : list EnumOption) (columnId : string) (row : Row) : Z :=
  Js.findIndex (λ o, Js.strict_eq (value o) (getCellValue (original row) columnId)) options.

End SortStrategies.

(** ** Layout configuration *)

Abbreviation VisibilityState := (gmap string bool).
Abbreviation ColumnOrderState := (list string).
Abbreviation ColumnSizingState := (gmap string Z).

Record ColumnPinningState := {
  left : option (list string);
  right : option (list string);
}.

(** The persisted unit.  The provider receives it as an untyped record, so
    each of the four fields may be missing. *)
Module Cfg.
Record t := mk {
  columnVisibility : option VisibilityState;
  columnOrder : option ColumnOrderState;
  columnPinning : option ColumnPinningState;
  columnSizing : option ColumnSizingState;
}.
End Cfg.

Abbreviation ColumnsConfig := Cfg.t.

(** [onChange(config)]: the calls made to the owner's callback, in order. *)
Definition onChange (config : ColumnsConfig) : list ColumnsConfig := [config].

(** ** Default column reconciliation *)

Definition defaultOrder : list string :=
  ["thumbnail"; "name"; "subType"; "status"; "tags"].

(** Truthiness of a string. *)
Definition truthy_string (s : string) : bool := negb (bool_decide (s = "")).

(** The body of the [defaultOrder.forEach((col, i) => ...)] callback, on the
    two local copies it mutates. *)
Definition reconcile_column (st : list string * ColumnPinningState)
    (col : string) (i : Z) : list string * ColumnPinningState :=
  let '(columnOrder, columnPinning) := st in
  if Js.includes columnOrder col then st
  else
    let defaultBefore := Js.at_index defaultOrder (i - 1) in
    let columnAfter := Js.at_index defaultOrder (i + 1) in
    let columnOrder' :=
      match defaultBefore with
      | Some before =>
          if negb (truthy_string before) || negb (Js.includes columnOrder before)
          then col :: columnOrder
          else Js.splice_insert (Js.indexOf columnOrder before + 1) col columnOrder
      | None => col :: columnOrder
      end in
    let columnPinning' :=
      match columnAfter, left columnPinning with
      | Some after, Some pinned =>
          if truthy_string after && Js.includes pinned after
          then {| left := Some (col :: pinned); right := right columnPinning |}
          else columnPinning
      | _, _ => columnPinning
      end in
    (columnOrder', columnPinning').

Definition reconcile (columnOrderInit : list string)
    (columnPinningInit : ColumnPinningState) : list string * ColumnPinningState :=
  Js.forEach reconcile_column defaultOrder (columnOrderInit, columnPinningInit).

(** [functionalUpdate(updater, input)] of the table library: an updater is
    either the new value or a function of the old one. *)
Definition functionalUpdate {T} (updater : T + (T → T)) (input : T) : T :=
  match updater with
  | inl v => v
  | inr f => f input
  end.

(** ** The provider: one render for a given [config] prop *)

Section Provider.

Variable columnsConfig : ColumnsConfig.

Definition columnOrderInit : list string :=
  default [] (Cfg.columnOrder columnsConfig).
Definition columnPinningInit : ColumnPinningState :=
  default {| left := None; right := None |} (Cfg.columnPinning columnsConfig).
Definition columnVisibility : VisibilityState :=
  default ∅ (Cfg.columnVisibility columnsConfig).
Definition columnsSizingExternal : ColumnSizingState :=
  default ∅ (Cfg.columnSizing columnsConfig).

Definition columnOrder : list string :=
  (reconcile columnOrderInit columnPinningInit).1.
Definition columnPinning : ColumnPinningState :=
  (reconcile columnOrderInit columnPinningInit).2.

(** Direct state updates *)

Definition setColumnVisibility (visibility : VisibilityState) : list ColumnsConfig :=
  onChange (Cfg.mk (Some visibility) (Cfg.columnOrder columnsConfig)
              (Cfg.columnPinning columnsConfig) (Cfg.columnSizing columnsConfig)).

Definition setColumnOrder (order : ColumnOrderState) : list ColumnsConfig :=
  onChange (Cfg.mk (Cfg.columnVisibility columnsConfig) (Some order)
              (Cfg.columnPinning columnsConfig) (Cfg.columnSizing columnsConfig)).

Definition setColumnPinning (pinning : ColumnPinningState) : list ColumnsConfig :=
  onChange (Cfg.mk (Cfg.columnVisibility columnsConfig) (Cfg.columnOrder columnsConfig)
              (Some pinning) (Cfg.columnSizing columnsConfig)).

(** Side effect utilities *)

(** [Object.keys(visibility).filter((col) => visibility[col] === false)] *)
Definition hiddenColumnsOf (visibility : VisibilityState) : list string :=
  filter (λ col, visibility !! col = Some false) (map_to_list visibility).*1.

Definition togglePinningOnVisibilityChange (visibility : VisibilityState)
    : ColumnPinningState :=
  let newPinning := columnPinning in
  let pinnedColumns := default [] (left newPinning) in
  let hiddenColumns := hiddenColumnsOf visibility in
  let newPinnedColumns :=
    filter (λ col, negb (Js.includes hiddenColumns col) = true) pinnedColumns in
  {| left := Some newPinnedColumns; right := right newPinning |}.

Definition updatePinningOrderOnOrderChange (order : ColumnOrderState)
    : ColumnPinningState :=
  let newPinning := columnPinning in
  let pinnedColumns := default [] (left newPinning) in
  let pinnedColumnsOrder :=
    filter (λ col, Js.includes pinnedColumns col = true) order in
  {| left := Some pinnedColumnsOrder; right := right newPinning |}.

(** [pinning.left?.includes(a) ? 1 : 0] *)
Definition pinnedRank (pinning : ColumnPinningState) (a : string) : Z :=
  match left pinning with
  | Some pinned => if Js.includes pinned a then 1 else 0
  | None => 0
  end.

Definition updateOrderOnPinningChange (pinning : ColumnPinningState)
    : ColumnOrderState :=
  Js.sort (λ a b, pinnedRank pinning b - pinnedRank pinning a) columnOrder.

(** Update methods with side effects *)

Definition updateColumnVisibility (visibility : VisibilityState) : list ColumnsConfig :=
  let newPinning := togglePinningOnVisibilityChange visibility in
  onChange (Cfg.mk (Some visibility) (Cfg.columnOrder columnsConfig)
              (Some newPinning) (Cfg.columnSizing columnsConfig)).

Definition updateColumnOrder (order : ColumnOrderState) : list ColumnsConfig :=
  let newPinning := updatePinningOrderOnOrderChange order in
  onChange (Cfg.mk (Cfg.columnVisibility columnsConfig) (Some order)
              (Some newPinning) (Cfg.columnSizing columnsConfig)).

Definition updateColumnPinning (pinning : ColumnPinningState) : list ColumnsConfig :=
  let newOrder := updateOrderOnPinningChange pinning in
  onChange (Cfg.mk (Cfg.columnVisibility columnsConfig) (Some newOrder)
              (Some pinning) (Cfg.columnSizing columnsConfig)).

(** Updater functions *)

Definition columnVisibilityUpdater
    (updater : VisibilityState + (VisibilityState → VisibilityState)) : list ColumnsConfig :=
  let newVisibility := functionalUpdate updater columnVisibility in
  updateColumnVisibility newVisibility.

Definition columnOrderUpdater
    (updater : ColumnOrderState + (ColumnOrderState → ColumnOrderState)) : list ColumnsConfig :=
  let newOrder := functionalUpdate updater columnOrder in
  updateColumnOrder newOrder.

Definition columnPinningUpdater
    (updater : ColumnPinningState + (ColumnPinningState → ColumnPinningState))
    : list ColumnsConfig :=
  let newPinning := functionalUpdate updater columnPinning in
  updateColumnPinning newPinning.

(** Global change: [setColumnsConfig] is [onChange] itself. *)
Definition setColumnsConfig (c : ColumnsConfig) : list ColumnsConfig := onChange c.

End Provider.

(** ** Debounced sizing

    [setColumnSizing] keeps a piece of component state
    ([internalColumnSizing]), a ref holding the handle of the last timer
    ([resizingTimeoutRef]) and schedules a callback with [setTimeout].  The
    store below is the component instance together with the timers of the
    event loop and a clock counting milliseconds. *)

(** The closure given to [setTimeout]: it captures the [columnsConfig] of
    the render that scheduled it and the [sizing] argument. *)
Record SizingCommit := {
  capturedConfig : ColumnsConfig;
  capturedSizing : ColumnSizingState;
}.

Record Timer := {
  handle : nat;
  due : Z;
  callback : SizingCommit;
}.

Record Store := {
  config : ColumnsConfig;
  internalColumnSizing : option ColumnSizingState;
  resizingTimeoutRef : option nat;
  clock : Z;
  timers : list Timer;
  nextHandle : nat;
  changes : list ColumnsConfig;
}.

Definition quietPeriod : Z := 500.

(** A freshly mounted provider. *)
Definition mount (cfg : ColumnsConfig) : Store :=
  {| config := cfg; internalColumnSizing := None; resizingTimeoutRef := None;
     clock := 0; timers := []; nextHandle := 1; changes := [] |}.

(** [internalColumnSizing || columnsSizingExternal] *)
Definition columnSizing (st : Store) : ColumnSizingState :=
  match internalColumnSizing st with
  | Some sizing => sizing
  | None => columnsSizingExternal (config st)
  end.

(** [clearTimeout(h)] *)
Definition clearTimeout (h : nat) (ts : list Timer) : list Timer :=
  filter (λ t, handle t ≠ h) ts.

Definition setColumnSizing (sizing : ColumnSizingState) (st : Store) : Store :=
  let pending :=
    match resizingTimeoutRef st with
    | Some h => clearTimeout h (timers st)
    | None => timers st
    end in
  let h := nextHandle st in
  {| config := config st;
     internalColumnSizing := Some sizing;
     resizingTimeoutRef := Some h;
     clock := clock st;
     timers := pending ++ [{| handle := h; due := clock st + quietPeriod;
                              callback := {| capturedConfig := config st;
                                             capturedSizing := sizing |} |}];
     nextHandle := S h;
     changes := changes st |}.

(** The timer callback: commit, then drop the overlay. *)
Definition runCommit (st : Store) (c : SizingCommit) : Store :=
  {| config := config st;
     internalColumnSizing := None;
     resizingTimeoutRef := resizingTimeoutRef st;
     clock := clock st;
     timers := timers st;
     nextHandle := nextHandle st;
     changes :=
       changes st ++
       onChange (Cfg.mk (Cfg.columnVisibility (capturedConfig c))
                   (Cfg.columnOrder (capturedConfig c))
                   (Cfg.columnPinning (capturedConfig c))
                   (Some (capturedSizing c))) |}.

(** [dt] milliseconds pass with no call: the timers that are due fire, the
    oldest first. *)
Definition elapse (dt : Z) (st : Store) : Store :=
  let now := clock st + dt in
  let fired := filter (λ t, due t ≤ now) (timers st) in
  let waiting := filter (λ t, ¬ due t ≤ now) (timers st) in
  foldl runCommit
    {| config := config st;
       internalColumnSizing := internalColumnSizing st;
       resizingTimeoutRef := resizingTimeoutRef st;
       clock := now;
       timers := waiting;
       nextHandle := nextHandle st;
       changes := changes st |}
    (callback <$> fired).

Definition columnSizingUpdater
    (sizingUpdater : ColumnSizingState + (ColumnSizingState → ColumnSizingState))
    (st : Store) : Store :=
  let newSizing := functionalUpdate sizingUpdater (columnSizing st) in
  setColumnSizing newSizing st.

(** The owner hands a new [config] prop to the provider. *)
Definition rerender (cfg : ColumnsConfig) (st : Store) : Store :=
  {| config := cfg;
     internalColumnSizing := internalColumnSizing st;
     resizingTimeoutRef := resizingTimeoutRef st;
     clock := clock st;
     timers := timers st;
     nextHandle := nextHandle st;
     changes := changes st |}.

(** A resize gesture: a first call, then further calls each [dt]
    milliseconds after the one before. *)
Definition gesture (first : ColumnSizingState)
    (calls : list (Z * ColumnSizingState)) (st : Store) : Store :=
  foldl (λ st' c, setColumnSizing c.2 (elapse c.1 st'))
        (setColumnSizing first st) calls.

Definition lastSizing (first : ColumnSizingState)
    (calls : list (Z * ColumnSizingState)) : ColumnSizingState :=
  foldl (λ _ c, c.2) first calls.

(** ** The column builder

    A column definition without its rendering closures ([header], [cell]):
    the fields that the builder sets.  A field the builder leaves out is
    [None]. *)
Module Column.
Record t := mk {
  id : option string;
  accessorKey : option string;
  size : option Z;
  minSize : option Z;
  enableResizing : option bool;
  enableSorting : option bool;
  enablePinning : option bool;
  enableHiding : option bool;
  sortDescFirst : option bool;
  filterFn : option string;
  sortingFn : option SortingFn;
}.
End Column.

Abbreviation ColumnDef := Column.t.

(** [ProjectTableAttribute]: an attribute of the schema. *)
Module Attribute.
Record t := mk {
  name : string;
  builtin : option bool;
  data : AttributeData;
}.
End Attribute.

Abbreviation ProjectTableAttribute := Attribute.t.

(** [BuiltInFieldOptions]: the builder reads the statuses only. *)
Record BuiltInFieldOptions := { status : list EnumOption }.

(** [TreeTableExtraColumn] *)
Record TreeTableExtraColumn := {
  column : ColumnDef;
  position : option Z;
}.

Definition MIN_SIZE : Z := 50.

(** [!excluded?.includes(id)] *)
Definition isIncluded (excluded : option (list string)) (columnId : string) : bool :=
  negb (match excluded with
        | Some ids => Js.includes ids columnId
        | None => false
        end).

(** The callback of [extraColumns.forEach]. *)
Definition addExtraColumn (allColumns : list ColumnDef) (extra : TreeTableExtraColumn)
    : list ColumnDef :=
  let position := default (-1) (position extra) in
  if bool_decide (0 ≤ position) && bool_decide (position < Z.of_nat (length allColumns))
  then Js.splice_insert position (column extra) allColumns
  else allColumns ++ [column extra].

Section Builder.

Variable getCellValue : TableRow → string → Js.Value.
Variable sortingFns_datetime : SortingFn.
Variable sortingFns_alphanumeric : SortingFn.
Variable localeCompare : string → string → Z.
(** Imported from [context/SelectionCellsContext]. *)
Variable ROW_SELECTION_COLUMN_ID : string.

Definition selectionColumn : ColumnDef :=
  {| Column.id := Some ROW_SELECTION_COLUMN_ID;
     Column.accessorKey := None;
     Column.size := Some 20;
     Column.minSize := None;
     Column.enableResizing := Some false;
     Column.enableSorting := Some false;
     Column.enablePinning := Some false;
     Column.enableHiding := Some false;
     Column.sortDescFirst := None;
     Column.filterFn := None;
     Column.sortingFn := None |}.

Definition thumbnailColumn : ColumnDef :=
  {| Column.id := Some "thumbnail";
     Column.accessorKey := None;
     Column.size := Some 63;
     Column.minSize := Some 64;
     Column.enableResizing := Some true;
     Column.enableSorting := Some false;
     Column.enablePinning := None;
     Column.enableHiding := None;
     Column.sortDescFirst := None;
     Column.filterFn := None;
     Column.sortingFn := None |}.

Definition nameColumn (showHierarchy : bool) : ColumnDef :=
  {| Column.id := Some "name";
     Column.accessorKey := Some "name";
     Column.size := None;
     Column.minSize := Some MIN_SIZE;
     Column.enableResizing := Some true;
     Column.enableSorting := Some true;
     Column.enablePinning := Some true;
     Column.enableHiding := Some true;
     Column.sortDescFirst := None;
     Column.filterFn := None;
     Column.sortingFn := Some (nameColumn_sortingFn localeCompare showHierarchy) |}.

Definition statusColumn (options : BuiltInFieldOptions) : ColumnDef :=
  {| Column.id := Some "status";
     Column.accessorKey := Some "status";
     Column.size := None;
     Column.minSize := Some MIN_SIZE;
     Column.enableResizing := Some true;
     Column.enableSorting := Some true;
     Column.enablePinning := Some true;
     Column.enableHiding := Some true;
     Column.sortDescFirst := Some true;
     Column.filterFn := None;
     Column.sortingFn :=
       Some (statusColumn_sortingFn getCellValue sortingFns_datetime
               sortingFns_alphanumeric (status options)) |}.

(** [subType], [assignees] and [tags] differ in id and accessor only. *)
Definition plainColumn (columnId : string) : ColumnDef :=
  {| Column.id := Some columnId;
     Column.accessorKey := Some columnId;
     Column.size := None;
     Column.minSize := Some MIN_SIZE;
     Column.enableResizing := Some true;
     Column.enableSorting := Some true;
     Column.enablePinning := Some true;
     Column.enableHiding := Some true;
     Column.sortDescFirst := None;
     Column.filterFn := None;
     Column.sortingFn := None |}.

Definition attribColumn (attrib : ProjectTableAttribute) : ColumnDef :=
  {| Column.id := Some ("attrib_" +:+ Attribute.name attrib);
     Column.accessorKey := Some ("attrib." +:+ Attribute.name attrib);
     Column.size := None;
     Column.minSize := Some MIN_SIZE;
     Column.enableResizing := Some true;
     Column.enableSorting := Some true;
     Column.enablePinning := Some true;
     Column.enableHiding := Some true;
     Column.sortDescFirst := None;
     Column.filterFn := Some "fuzzy";
     Column.sortingFn :=
       Some (attribColumn_sortingFn getCellValue sortingFns_datetime
               sortingFns_alphanumeric (Attribute.data attrib)) |}.

(** [if (isIncluded(id)) staticColumns.push(...)] *)
Definition pushIf (included : bool) (col : ColumnDef) (columns : list ColumnDef)
    : list ColumnDef :=
  if included then columns ++ [col] else columns.

Definition staticColumns (showHierarchy : bool) (options : BuiltInFieldOptions)
    (excluded : option (list string)) : list ColumnDef :=
  let cols := [] in
  let cols := pushIf (isIncluded excluded ROW_SELECTION_COLUMN_ID) selectionColumn cols in
  let cols := pushIf (isIncluded excluded "thumbnail") thumbnailColumn cols in
  let cols := pushIf (isIncluded excluded "name") (nameColumn showHierarchy) cols in
  let cols := pushIf (isIncluded excluded "status") (statusColumn options) cols in
  let cols := pushIf (isIncluded excluded "subType") (plainColumn "subType") cols in
  let cols := pushIf (isIncluded excluded "assignees") (plainColumn "assignees") cols in
  let cols := pushIf (isIncluded excluded "tags") (plainColumn "tags") cols in
  cols.

(** The predicate of [attribs.filter(...)]. *)
Definition attribIncluded (excluded : option (list string))
    (attrib : ProjectTableAttribute) : bool :=
  let columnId := "attrib_" +:+ Attribute.name attrib in
  if negb (isIncluded excluded columnId) then false
  else if truthy_flag (Attribute.builtin attrib) && negb (isIncluded excluded "attrib")
       then false
       else true.

Definition attributeColumns (attribs : list ProjectTableAttribute)
    (excluded : option (list string)) : list ColumnDef :=
  attribColumn <$> filter (λ attrib, attribIncluded excluded attrib = true) attribs.

Definition buildTreeTableColumns (attribs : list ProjectTableAttribute)
    (showHierarchy : bool) (options : BuiltInFieldOptions)
    (excluded : option (list string))
    (extraColumns : option (list TreeTableExtraColumn)) : list ColumnDef :=
  let allColumns :=
    staticColumns showHierarchy options excluded ++ attributeColumns attribs excluded in
  match extraColumns with
  | Some extras => Js.forEach (λ acc extra _, addExtraColumn acc extra) extras allColumns
  | None => allColumns
  end.

End Builder.

(** The ids of the built-in columns, in the sequence the builder pushes
    them. *)
Definition builtInIds (ROW_SELECTION_COLUMN_ID : string) : list string :=
  [ROW_SELECTION_COLUMN_ID; "thumbnail"; "name"; "status"; "subType"; "assignees"; "tags"].

(** ** Sorting rows by a column

    The table library sorts the rows with the column's [sortingFn] and
    negates its result for a descending sort; ties keep the rows in their
    given order. *)
Definition sortByColumn (sortingFn : SortingFn) (columnId : string) (desc : bool)
    (rows : list Row) : list Row :=
  Js.sort (λ a b, let r := sortingFn a b columnId in if desc then - r else r) rows.

(** ** Sample data used by the examples *)

Module Sample.

(** A cell accessor reading the attribute dictionary of the row. *)
Definition cellValue (row : TableRow) (columnId : string) : Js.Value :=
  default Js.VUndefined (attrib row !! columnId).

Definition constantSort (r : Z) : SortingFn := λ _ _ _, r.

Definition enumABC : list EnumOption :=
  [ {| value := Js.VStr "A"; optionLabel := "A" |};
    {| value := Js.VStr "B"; optionLabel := "B" |};
    {| value := Js.VStr "C"; optionLabel := "C" |} ].

Definition priority : AttributeData :=
  {| type := Some "string"; enum := Some enumABC |}.

Definition rowOf (rowId v : string) (loading : option bool) : Row :=
  {| id := rowId;
     original := {| name := rowId; label := None; path := None;
                    isLoading := loading;
                    attrib := {[ "attrib_priority" := Js.VStr v ]} |} |}.

Definition rowA := rowOf "r1" "A" (Some false).
Definition rowB := rowOf "r2" "B" (Some false).
Definition rowC := rowOf "r3" "C" (Some false).
Definition rowA' := rowOf "r4" "A" (Some false).
Definition rowX := rowOf "r5" "X" (Some false).
Definition rowY := rowOf "r6" "Y" (Some false).
Definition rowLoading := rowOf "r7" "A" (Some true).

Definition prioritySort : SortingFn :=
  attribColumn_sortingFn cellValue (constantSort 0) (constantSort 0) priority.

Definition pins (ids : list string) : ColumnPinningState :=
  {| left := Some ids; right := None |}.

Definition configOf (order pinned : list string) : ColumnsConfig :=
  Cfg.mk None (Some order) (Some (pins pinned)) None.

End Sample.

(** ** The pin-visibility invariant

    No column that the configuration hides is in its left pin list. *)
Definition pinnedLeft (c : ColumnsConfig) : list string :=
  default [] (Cfg.columnPinning c ≫= left).

Definition isHidden (c : ColumnsConfig) (col : string) : Prop :=
  default ∅ (Cfg.columnVisibility c) !! col = Some false.

Definition pins_visible (c : ColumnsConfig) : Prop :=
  ∀ col, col ∈ pinnedLeft c → ¬ isHidden c col.

(** ** The state of a gesture in progress

    One timer is waiting, a full quiet period from now; it is the one the
    ref points to and it will commit [sizing] into [cfg]; the overlay holds
    [sizing]; the calls made to [onChange] so far are [base]. *)
Definition gesturePending (base : list ColumnsConfig) (cfg : ColumnsConfig)
    (sizing : ColumnSizingState) (st : Store) : Prop :=
  ∃ h, timers st = [{| handle := h; due := clock st + quietPeriod;
                       callback := {| capturedConfig := cfg;
                                      capturedSizing := sizing |} |}] ∧
       resizingTimeoutRef st = Some h ∧
       internalColumnSizing st = Some sizing ∧
       changes st = base ∧
       config st = cfg.

(** The configuration that the commit of [sizing] hands to [onChange]. *)
Definition withSizing (cfg : ColumnsConfig) (sizing : ColumnSizingState) : ColumnsConfig :=
  Cfg.mk (Cfg.columnVisibility cfg) (Cfg.columnOrder cfg) (Cfg.columnPinning cfg)
    (Some sizing).

(** ** Traces of the store

    What can happen to a mounted provider: a call of [setColumnSizing] or of
    [columnSizingUpdater], time passing, and the owner handing over a new
    [config] prop. *)
Inductive StoreEvent :=
| CallSetColumnSizing (sizing : ColumnSizingState)
| CallColumnSizingUpdater
    (sizingUpdater : ColumnSizingState + (ColumnSizingState → ColumnSizingState))
| Elapse (dt : Z)
| Rerender (cfg : ColumnsConfig).

Definition handleEvent (st : Store) (ev : StoreEvent) : Store :=
  match ev with
  | CallSetColumnSizing sizing => setColumnSizing sizing st
  | CallColumnSizingUpdater sizingUpdater => columnSizingUpdater sizingUpdater st
  | Elapse dt => elapse dt st
  | Rerender cfg => rerender cfg st
  end.

Definition runEvents (events : list StoreEvent) (st : Store) : Store :=
  foldl handleEvent st events.

Definition isSizingCall (ev : StoreEvent) : bool :=
  match ev with
  | CallSetColumnSizing _ | CallColumnSizingUpdater _ => true
  | _ => false
  end.

(** The overlay is there exactly while one commit is waiting, and it holds
    what that commit will write. *)
Definition overlayMatchesTimer (st : Store) : Prop :=
  (timers st = [] ∧ internalColumnSizing st = None) ∨
  (∃ t, timers st = [t] ∧ resizingTimeoutRef st = Some (handle t) ∧
        internalColumnSizing st = Some (capturedSizing (callback t))).

(** ** The row selection in the URL

    [RowSelectionParam] of [pages/ProjectListsPage/context/ListsContext.tsx].
    A [RowSelectionState] is an object from row ids to booleans; it is
    modelled by its entries in the sequence [Object.entries] gives them,
    which is the sequence of insertion for ids that are not array
    indices. *)
Module RowSelectionParam.

Abbreviation RowSelectionState := (list (string * bool)).

Definition comma : Ascii.ascii := Ascii.Ascii false false true true false true false false.

(** [ids.join(',')] *)
Fixpoint join (ids : list string) : string :=
  match ids with
  | [] => ""
  | [x] => x
  | x :: rest => x +:+ String comma (join rest)
  end.

(** [str.split(',')] *)
Fixpoint split (str : string) : list string :=
  match str with
  | EmptyString => [""]
  | String c rest =>
      if bool_decide (c = comma) then "" :: split rest
      else match split rest with
           | piece :: pieces => String c piece :: pieces
           | [] => [String c ""]
           end
  end.

(** [{ ...acc, [id]: true }] *)
Fixpoint setTrue (acc : RowSelectionState) (rowId : string) : RowSelectionState :=
  match acc with
  | [] => [(rowId, true)]
  | (k, v) :: rest =>
      if bool_decide (k = rowId) then (k, true) :: rest
      else (k, v) :: setTrue rest rowId
  end.

Definition selectedIdsOf (rowSelection : RowSelectionState) : list string :=
  (filter (λ e, e.2 = true) rowSelection).*1.

(** [encode]: [None] stands for [null] and [undefined] on both sides. *)
Definition encode (rowSelection : option RowSelectionState) : option string :=
  match rowSelection with
  | None => None
  | Some entries =>
      if bool_decide (length entries = 0%nat) then None
      else Some (join (selectedIdsOf entries))
  end.

(** What [decode] is given: a string, an array of strings and [null]s, or
    nothing. *)
Inductive QueryInput :=
| QString (str : string)
| QArray (items : list (option string))
| QNone.

Definition decode (input : QueryInput) : RowSelectionState :=
  let str :=
    match input with
    | QString s => Some s
    | QArray items => mjoin (items !! 0%nat)
    | QNone => None
    end in
  match str with
  | None => []
  | Some s =>
      if bool_decide (s = "") then []
      else foldl setTrue [] (split s)
  end.

(** The encoded value as it comes back from the URL. *)
Definition asInput (encoded : option string) : QueryInput :=
  match encoded with
  | Some s => QString s
  | None => QNone
  end.

Fixpoint hasComma (s : string) : bool :=
  match s with
  | EmptyString => false
  | String c rest => bool_decide (c = comma) || hasComma rest
  end.

End RowSelectionParam.

(** ** Paths of list items

    [extractPath] of the list items data provider, on the fields of an
    [EntityListItem] that it reads. *)
Module ListItem.

Record FolderRef := { folderPath : option string }.
Record ProductRef := { productFolder : option FolderRef }.
Record TaskRef := { taskName : option string }.

Record t := {
  path : option string;
  folder : option FolderRef;
  product : option ProductRef;
  task : option TaskRef;
}.

(** [a || b] on strings, where [a] may be [undefined]. *)
Definition orElse (a : option string) (b : string) : string :=
  match a with
  | Some s => if bool_decide (s = "") then b else s
  | None => b
  end.

(** ['' + x]: [undefined] is turned into text. *)
Definition toText (x : option string) : string :=
  match x with
  | Some s => s
  | None => "undefined"
  end.

Definition extractPath (item : t) (entityType : string) : string :=
  if bool_decide (entityType = "folder") then orElse (path item) ""
  else if bool_decide (entityType = "task") then
    orElse (folder item ≫= folderPath) ""
  else if bool_decide (entityType = "product") then
    orElse (folder item ≫= folderPath) ""
  else if bool_decide (entityType = "version") then
    orElse ((product item ≫= productFolder) ≫= folderPath)
      (orElse (Some (toText (task item ≫= taskName))) "")
  else "".

End ListItem.

(** * Properties *)

(** ** The loading decorator *)

Lemma withLoadingStateSort_differ sortFn rowA rowB columnId :
  isLoading (original rowA) ≠ isLoading (original rowB) →
  withLoadingStateSort sortFn rowA rowB columnId =
    if truthy_flag (isLoading (original rowA)) then 1 else -1.
Proof.
  intros Hne. unfold withLoadingStateSort.
  by rewrite bool_decide_eq_true_2.
Qed.

Lemma withLoadingStateSort_same sortFn rowA rowB columnId :
  isLoading (original rowA) = isLoading (original rowB) →
  withLoadingStateSort sortFn rowA rowB columnId = sortFn rowA rowB columnId.
Proof.
  intros Heq. unfold withLoadingStateSort.
  rewrite bool_decide_eq_false_2; [done | by intros []].
Qed.

(** C9.  Whatever the wrapped comparator answers, a row that is loading is
    ordered after a row that is not (result [1] when the loading row is the
    first argument, [-1] when it is the second); whenever the two flags
    differ the wrapped comparator is not consulted at all; and when the two
    flags are equal the decorated strategy returns the wrapped comparator's
    result. *)
Theorem withLoadingStateSort_loading_last
    (sortFn : SortingFn) (rowA rowB : Row) (columnId : string) :
  (isLoading (original rowA) = Some true →
   isLoading (original rowB) ≠ Some true →
     withLoadingStateSort sortFn rowA rowB columnId = 1 ∧
     withLoadingStateSort sortFn rowB rowA columnId = -1) ∧
  (isLoading (original rowA) ≠ isLoading (original rowB) →
     withLoadingStateSort sortFn rowA rowB columnId =
       if truthy_flag (isLoading (original rowA)) then 1 else -1) ∧
  (isLoading (original rowA) = isLoading (original rowB) →
     withLoadingStateSort sortFn rowA rowB columnId = sortFn rowA rowB columnId).
Proof.
  split; [| split].
  - intros HA HB. split.
    + rewrite withLoadingStateSort_differ by congruence. by rewrite HA.
    + rewrite withLoadingStateSort_differ by congruence.
      destruct (isLoading (original rowB)) as [[]|]; done.
  - apply withLoadingStateSort_differ.
  - apply withLoadingStateSort_same.
Qed.

(** The decorator at work: the wrapped comparator would put the loading
    row first, the decorated one puts it last, in both argument orders. *)
Lemma withLoadingStateSort_loading_last_witness :
  withLoadingStateSort (Sample.constantSort (-1)) Sample.rowLoading Sample.rowB "attrib_priority" = 1 ∧
  withLoadingStateSort (Sample.constantSort 1) Sample.rowB Sample.rowLoading "attrib_priority" = -1 ∧
  withLoadingStateSort (Sample.constantSort 7) Sample.rowA Sample.rowB "attrib_priority" = 7.
Proof.
  pose proof (withLoadingStateSort_loading_last
                (Sample.constantSort (-1)) Sample.rowLoading Sample.rowB
                "attrib_priority") as (H1 & _ & _).
  pose proof (withLoadingStateSort_loading_last
                (Sample.constantSort 1) Sample.rowLoading Sample.rowB
                "attrib_priority") as (H2 & _ & _).
  pose proof (withLoadingStateSort_loading_last
                (Sample.constantSort 7) Sample.rowA Sample.rowB
                "attrib_priority") as (_ & _ & H3).
  split; [| split].
  - apply H1; [reflexivity | discriminate].
  - apply H2; [reflexivity | discriminate].
  - apply H3. reflexivity.
Defined.

(** ** The enum comparator *)

Lemma findIndex_from_none {A} (p : A → bool) (i : Z) (arr : list A) :
  (∀ x, x ∈ arr → p x = false) → Js.findIndex_from p i arr = -1.
Proof.
  revert i. induction arr as [|x rest IH]; intros i Hall; [done |].
  simpl. rewrite (Hall x) by apply list_elem_of_here.
  apply IH. intros y Hy. apply Hall. by apply list_elem_of_further.
Qed.

Section EnumSort.

Variable getCellValue : TableRow → string → Js.Value.
Variables sortingFns_datetime sortingFns_alphanumeric : SortingFn.

Local Abbreviation attribSort' :=
  (attribSort getCellValue sortingFns_datetime sortingFns_alphanumeric).
Local Abbreviation enumIndex' := (enumIndex getCellValue).

Lemma attribSort_enum (data : AttributeData) (options : list EnumOption)
    (rowA rowB : Row) (columnId : string) :
  enum data = Some options →
  attribSort' rowA rowB columnId (Some data) =
    if bool_decide (enumIndex' options columnId rowA < enumIndex' options columnId rowB)
    then 1 else -1.
Proof.
  intros Henum. unfold attribSort, enumIndex. simpl.
  rewrite Henum.
  repeat case_bool_decide; lia.
Qed.

(** C10.  With declared enum options the comparator never answers [0]:
    two rows whose values have the same index in the option list (a row
    against itself, or two values that are both missing from the list)
    compare as [-1], in both argument orders. *)
Theorem attribSort_enum_never_zero (data : AttributeData)
    (options : list EnumOption) (rowA rowB : Row) (columnId : string) :
  enum data = Some options →
  attribSort' rowA rowB columnId (Some data) ≠ 0 ∧
  attribSort' rowA rowA columnId (Some data) = -1 ∧
  (enumIndex' options columnId rowA = enumIndex' options columnId rowB →
     attribSort' rowA rowB columnId (Some data) = -1 ∧
     attribSort' rowB rowA columnId (Some data) = -1) ∧
  ((∀ o, o ∈ options → value o ≠ getCellValue (original rowA) columnId) →
   (∀ o, o ∈ options → value o ≠ getCellValue (original rowB) columnId) →
     attribSort' rowA rowB columnId (Some data) = -1 ∧
     attribSort' rowB rowA columnId (Some data) = -1).
Proof.
  intros Henum.
  assert (Hsame : ∀ a b, enumIndex' options columnId a = enumIndex' options columnId b →
                         attribSort' a b columnId (Some data) = -1).
  { intros a b Hab. rewrite (attribSort_enum _ _ _ _ _ Henum), Hab.
    rewrite bool_decide_eq_false_2; [done | lia]. }
  assert (Hmissing : ∀ r, (∀ o, o ∈ options → value o ≠ getCellValue (original r) columnId) →
                          enumIndex' options columnId r = -1).
  { intros r Hr. apply findIndex_from_none. intros o Ho.
    apply bool_decide_eq_false_2. by apply Hr. }
  split; [| split; [| split]].
  - rewrite (attribSort_enum _ _ _ _ _ Henum). case_bool_decide; lia.
  - by apply Hsame.
  - intros Heq. split; by apply Hsame.
  - intros HA HB. split; apply Hsame; by rewrite !Hmissing.
Qed.

End EnumSort.

(** Options [A, B, C]: two rows holding [A], and two rows holding values
    that are not options, compare as [-1] whichever comes first. *)
Lemma attribSort_enum_never_zero_witness :
  let cmp a b :=
    attribSort Sample.cellValue (Sample.constantSort 0) (Sample.constantSort 0)
      a b "attrib_priority" (Some Sample.priority) in
  cmp Sample.rowA Sample.rowB ≠ 0 ∧
  cmp Sample.rowA Sample.rowA = -1 ∧
  (cmp Sample.rowA Sample.rowA' = -1 ∧ cmp Sample.rowA' Sample.rowA = -1) ∧
  (cmp Sample.rowX Sample.rowY = -1 ∧ cmp Sample.rowY Sample.rowX = -1).
Proof.
  pose proof (attribSort_enum_never_zero Sample.cellValue (Sample.constantSort 0)
                (Sample.constantSort 0) Sample.priority Sample.enumABC
                Sample.rowA Sample.rowB "attrib_priority" eq_refl) as (H1 & H2 & _ & _).
  pose proof (attribSort_enum_never_zero Sample.cellValue (Sample.constantSort 0)
                (Sample.constantSort 0) Sample.priority Sample.enumABC
                Sample.rowA Sample.rowA' "attrib_priority" eq_refl) as (_ & _ & H3 & _).
  pose proof (attribSort_enum_never_zero Sample.cellValue (Sample.constantSort 0)
                (Sample.constantSort 0) Sample.priority Sample.enumABC
                Sample.rowX Sample.rowY "attrib_priority" eq_refl) as (_ & _ & _ & H4).
  simpl. split; [exact H1 | split; [exact H2 | split]].
  - apply H3. vm_compute. reflexivity.
  - apply H4; intros o Ho; vm_compute in Ho;
      repeat (apply elem_of_cons in Ho as [-> | Ho]; [vm_compute; discriminate |]);
      by apply elem_of_nil in Ho.
Defined.

(** C1.  The enum strategy on options [A, B, C]: the comparator answers [1]
    ("after") for a row whose value comes earlier in the option list, so
    an ascending sort of rows holding [C, A, B] yields [C, B, A], and it is
    the descending sort that yields [A, B, C]. *)
Theorem attribSort_enum_orders_by_descending_index :
  Sample.prioritySort Sample.rowA Sample.rowB "attrib_priority" = 1 ∧
  Sample.prioritySort Sample.rowB Sample.rowA "attrib_priority" = -1 ∧
  sortByColumn Sample.prioritySort "attrib_priority" false
    [Sample.rowC; Sample.rowA; Sample.rowB] = [Sample.rowC; Sample.rowB; Sample.rowA] ∧
  sortByColumn Sample.prioritySort "attrib_priority" true
    [Sample.rowC; Sample.rowA; Sample.rowB] = [Sample.rowA; Sample.rowB; Sample.rowC].
Proof. repeat split; vm_compute; reflexivity. Qed.

(** ** Array helpers *)

Lemma includes_true (arr : list string) (x : string) :
  Js.includes arr x = true ↔ x ∈ arr.
Proof. unfold Js.includes. apply bool_decide_eq_true. Qed.

Lemma includes_false (arr : list string) (x : string) :
  Js.includes arr x = false ↔ x ∉ arr.
Proof. unfold Js.includes. apply bool_decide_eq_false. Qed.

Lemma forEach_from_invariant {A S} (I : S → Prop) (f : S → A → Z → S)
    (i : Z) (arr : list A) (st : S) :
  I st →
  (∀ st' x j, x ∈ arr → I st' → I (f st' x j)) →
  I (Js.forEach_from f i arr st).
Proof.
  revert i st. induction arr as [|x rest IH]; intros i st Hst Hstep; [done |].
  simpl. apply IH.
  - apply Hstep; [apply list_elem_of_here | done].
  - intros st' y j Hy. apply Hstep. by apply list_elem_of_further.
Qed.

(** A stable sort by a two-valued rank is a stable partition. *)
Lemma sort_by_rank_partition (P : string → Prop) `{∀ x, Decision (P x)}
    (rank : string → Z) (arr : list string) :
  (∀ x, rank x = if decide (P x) then 1 else 0) →
  Js.sort (λ a b, rank b - rank a) arr =
    filter P arr ++ filter (λ x, ¬ P x) arr.
Proof.
  intros Hrank.
  assert (Hins_in : ∀ x l, P x → Js.sort_insert (λ a b, rank b - rank a) x l = x :: l).
  { intros x [|y l] Hx; [done |]. simpl.
    rewrite bool_decide_eq_true_2; [done |].
    rewrite (Hrank x), (Hrank y). repeat case_decide; done || lia. }
  assert (Hins_out : ∀ x l1 l2, ¬ P x → Forall P l1 → Forall (λ y, ¬ P y) l2 →
            Js.sort_insert (λ a b, rank b - rank a) x (l1 ++ l2) = l1 ++ x :: l2).
  { intros x l1 l2 Hx H1 H2. induction H1 as [|y l1 Hy _ IH]; simpl.
    - destruct H2 as [|z l2 Hz _]; [done |]. simpl.
      rewrite bool_decide_eq_true_2; [done |].
      rewrite (Hrank x), (Hrank z). repeat case_decide; done || lia.
    - rewrite bool_decide_eq_false_2; [by rewrite IH |].
      rewrite (Hrank x), (Hrank y). repeat case_decide; done || lia. }
  induction arr as [|x rest IH]; [done |].
  simpl. rewrite IH. destruct (decide (P x)) as [Hx | Hx].
  - rewrite Hins_in by done.
    by rewrite (filter_cons_True P), (filter_cons_False (λ y, ¬ P y)) by tauto.
  - rewrite Hins_out; [| done | |].
    + by rewrite (filter_cons_False P), (filter_cons_True (λ y, ¬ P y)) by done.
    + apply Forall_forall. by intros y [? _]%list_elem_of_filter.
    + apply Forall_forall. by intros y [? _]%list_elem_of_filter.
Qed.

Lemma elem_of_hiddenColumnsOf (visibility : VisibilityState) (col : string) :
  col ∈ hiddenColumnsOf visibility ↔ visibility !! col = Some false.
Proof.
  unfold hiddenColumnsOf. rewrite list_elem_of_filter. split; [tauto |].
  intros Hcol. split; [done |].
  apply list_elem_of_fmap. exists (col, false). split; [done |].
  by apply elem_of_map_to_list.
Qed.

(** ** Reconciliation leaves foreign pin lists alone *)

Lemma at_index_defaultOrder (i : Z) (s : string) :
  Js.at_index defaultOrder i = Some s → truthy_string s = true ∧ s ∈ defaultOrder.
Proof.
  unfold Js.at_index. case_bool_decide; [done |].
  destruct (Z.to_nat i) as [|[|[|[|[|n]]]]]; simpl; intros [= <-];
    (split; [reflexivity | by apply (bool_decide_unpack _)]).
Qed.

Lemma reconcile_column_pinning (o : list string) (p : ColumnPinningState)
    (col : string) (i : Z) :
  (reconcile_column (o, p) col i).2 =
    if Js.includes o col then p
    else match Js.at_index defaultOrder (i + 1), left p with
         | Some after, Some pinned =>
             if Js.includes pinned after
             then {| left := Some (col :: pinned); right := right p |}
             else p
         | _, _ => p
         end.
Proof.
  unfold reconcile_column. destruct (Js.includes o col); [done |]. simpl.
  destruct (Js.at_index defaultOrder (i + 1)) as [after|] eqn:Hafter; [| done].
  apply at_index_defaultOrder in Hafter as [-> _].
  by destruct (left p).
Qed.

Lemma reconcile_pinning_unchanged (o : list string) (p : ColumnPinningState) :
  (∀ c, c ∈ defaultOrder → c ∉ default [] (left p)) →
  (reconcile o p).2 = p.
Proof.
  intros Hforeign. unfold reconcile, Js.forEach.
  apply (forEach_from_invariant (λ st, st.2 = p)); [done |].
  intros [o' p'] col j _ Hp. simpl in Hp. subst p'.
  rewrite reconcile_column_pinning.
  destruct (Js.includes o' col); [done |].
  destruct (Js.at_index defaultOrder (j + 1)) as [after|] eqn:Hafter; [| done].
  apply at_index_defaultOrder in Hafter as [_ Hin].
  destruct (left p) as [pinned|] eqn:Hleft; [| done].
  specialize (Hforeign after Hin). simpl in Hforeign.
  by apply includes_false in Hforeign as ->.
Qed.

(** ** The reconciling updaters *)

Lemma pinnedRank_spec (pinning : ColumnPinningState) (a : string) :
  pinnedRank pinning a = if decide (a ∈ default [] (left pinning)) then 1 else 0.
Proof.
  unfold pinnedRank, Js.includes.
  destruct (left pinning) as [pinned|]; cbn [default from_option Datatypes.id].
  - rewrite bool_decide_decide. by destruct (decide (a ∈ pinned)).
  - destruct (decide (a ∈ [])) as [Hin|]; [by apply elem_of_nil in Hin | done].
Qed.

Lemma updateColumnVisibility_emits (cfg : ColumnsConfig) (visibility : VisibilityState) :
  updateColumnVisibility cfg visibility =
    [Cfg.mk (Some visibility) (Cfg.columnOrder cfg)
       (Some {| left := Some (filter (λ col, visibility !! col ≠ Some false)
                                (default [] (left (columnPinning cfg))));
                right := right (columnPinning cfg) |})
       (Cfg.columnSizing cfg)].
Proof.
  unfold updateColumnVisibility, togglePinningOnVisibilityChange, onChange.
  do 5 f_equal. apply list_filter_iff. intros col.
  by rewrite negb_true_iff, includes_false, elem_of_hiddenColumnsOf.
Qed.

Lemma updateColumnOrder_emits (cfg : ColumnsConfig) (order : ColumnOrderState) :
  updateColumnOrder cfg order =
    [Cfg.mk (Cfg.columnVisibility cfg) (Some order)
       (Some {| left := Some (filter (λ col, col ∈ default [] (left (columnPinning cfg)))
                                order);
                right := right (columnPinning cfg) |})
       (Cfg.columnSizing cfg)].
Proof.
  unfold updateColumnOrder, updatePinningOrderOnOrderChange, onChange.
  do 5 f_equal. apply list_filter_iff. intros col. apply includes_true.
Qed.

Lemma updateColumnPinning_emits (cfg : ColumnsConfig) (pinning : ColumnPinningState) :
  updateColumnPinning cfg pinning =
    [Cfg.mk (Cfg.columnVisibility cfg)
       (Some (filter (λ a, a ∈ default [] (left pinning)) (columnOrder cfg) ++
              filter (λ a, a ∉ default [] (left pinning)) (columnOrder cfg)))
       (Some pinning)
       (Cfg.columnSizing cfg)].
Proof.
  unfold updateColumnPinning, updateOrderOnPinningChange, onChange.
  do 3 f_equal. apply sort_by_rank_partition. apply pinnedRank_spec.
Qed.

(** C5.  [updateColumnVisibility] makes one call to [onChange]; the
    configuration it hands over holds the new visibility and, as left pin
    list, the current pin list without the ids that the new visibility maps
    to [false], the others in their order.  From pins [x, y], hiding [x]
    leaves [y]. *)
Theorem updateColumnVisibility_unpins_hidden
    (cfg : ColumnsConfig) (visibility : VisibilityState) :
  updateColumnVisibility cfg visibility =
    [Cfg.mk (Some visibility) (Cfg.columnOrder cfg)
       (Some {| left := Some (filter (λ col, visibility !! col ≠ Some false)
                                (default [] (left (columnPinning cfg))));
                right := right (columnPinning cfg) |})
       (Cfg.columnSizing cfg)] ∧
  (∀ vis order r sizing,
     updateColumnVisibility
       (Cfg.mk vis order (Some {| left := Some ["x"; "y"]; right := r |}) sizing)
       {[ "x" := false ]} =
     [Cfg.mk (Some {[ "x" := false ]}) order
        (Some {| left := Some ["y"]; right := r |}) sizing]).
Proof.
  split; [apply updateColumnVisibility_emits |].
  intros vis order r sizing. rewrite updateColumnVisibility_emits.
  unfold columnPinning. rewrite reconcile_pinning_unchanged.
  - reflexivity.
  - apply Forall_forall. by apply (bool_decide_unpack _).
Qed.

(** C4.  [updateColumnOrder] makes one call to [onChange]; the configuration
    it hands over holds the new order and, as left pin list, the ids of the
    new order that are currently pinned, in the sequence of the new order.
    From order [a, b, c, d] with pins [b, d], the order [d, c, b, a] gives
    the pins [d, b]. *)
Theorem updateColumnOrder_pins_follow_order
    (cfg : ColumnsConfig) (order : ColumnOrderState) :
  updateColumnOrder cfg order =
    [Cfg.mk (Cfg.columnVisibility cfg) (Some order)
       (Some {| left := Some (filter (λ col, col ∈ default [] (left (columnPinning cfg)))
                                order);
                right := right (columnPinning cfg) |})
       (Cfg.columnSizing cfg)] ∧
  (∀ vis r sizing,
     updateColumnOrder
       (Cfg.mk vis (Some ["a"; "b"; "c"; "d"])
          (Some {| left := Some ["b"; "d"]; right := r |}) sizing)
       ["d"; "c"; "b"; "a"] =
     [Cfg.mk vis (Some ["d"; "c"; "b"; "a"])
        (Some {| left := Some ["d"; "b"]; right := r |}) sizing]).
Proof.
  split; [apply updateColumnOrder_emits |].
  intros vis r sizing. rewrite updateColumnOrder_emits.
  unfold columnPinning. rewrite reconcile_pinning_unchanged.
  - reflexivity.
  - apply Forall_forall. by apply (bool_decide_unpack _).
Qed.

(** C3 (as the code has it).  [updateColumnPinning] makes one call to
    [onChange]; the configuration it hands over holds the new pinning and,
    as order, the stable partition of the current order: the ids of the new
    left pin list first, then the others, both in the sequence they have in
    the current order.  The current order is the reconciled one, so it
    always holds the five default ids: from a persisted order [a, b, c, d],
    pinning [c] gives [c, thumbnail, name, subType, status, tags, a, b, d]. *)
Theorem updateColumnPinning_stable_partition
    (cfg : ColumnsConfig) (pinning : ColumnPinningState) :
  updateColumnPinning cfg pinning =
    [Cfg.mk (Cfg.columnVisibility cfg)
       (Some (filter (λ a, a ∈ default [] (left pinning)) (columnOrder cfg) ++
              filter (λ a, a ∉ default [] (left pinning)) (columnOrder cfg)))
       (Some pinning)
       (Cfg.columnSizing cfg)] ∧
  (∀ vis pinned r sizing,
     updateColumnPinning (Cfg.mk vis (Some ["a"; "b"; "c"; "d"]) pinned sizing)
       {| left := Some ["c"]; right := r |} =
     [Cfg.mk vis
        (Some ["c"; "thumbnail"; "name"; "subType"; "status"; "tags"; "a"; "b"; "d"])
        (Some {| left := Some ["c"]; right := r |}) sizing]).
Proof.
  split; [apply updateColumnPinning_emits |].
  intros vis pinned r sizing. rewrite updateColumnPinning_emits. reflexivity.
Qed.

(** The order that the example of C3 expects, [c, a, b, d], is not the one
    handed to [onChange]: the five default ids are part of the current
    order. *)
Lemma updateColumnPinning_abcd_keeps_defaults :
  let emitted :=
    updateColumnPinning (Cfg.mk None (Some ["a"; "b"; "c"; "d"]) None None)
      {| left := Some ["c"]; right := None |} in
  emitted =
    [Cfg.mk None
       (Some ["c"; "thumbnail"; "name"; "subType"; "status"; "tags"; "a"; "b"; "d"])
       (Some {| left := Some ["c"]; right := None |}) None] ∧
  ¬ (∃ c, c ∈ emitted ∧ Cfg.columnOrder c = Some ["c"; "a"; "b"; "d"]).
Proof.
  split; [reflexivity |].
  intros (c & Hc & Horder). apply list_elem_of_singleton in Hc. subst c.
  discriminate Horder.
Qed.

(** ** The pin-visibility invariant across the mutations *)

Lemma pins_visible_mk vis order pinning sizing :
  pins_visible (Cfg.mk vis order (Some pinning) sizing) ↔
  ∀ col, col ∈ default [] (left pinning) → default ∅ vis !! col ≠ Some false.
Proof. reflexivity. Qed.

Lemma Forall_singleton_iff {A} (P : A → Prop) (x : A) : Forall P [x] ↔ P x.
Proof.
  split; [by inversion 1 | intros; by constructor].
Qed.

(** C2 (as the code has it).  Of the mutations only [updateColumnVisibility]
    establishes the invariant: in the configuration it hands to [onChange]
    no id of the left pin list is mapped to [false].  The others hand the pin
    list and the visibility on without reconciling one with the other:
    after [setColumnOrder] and after the deferred sizing commit the
    invariant holds if the persisted configuration had it, after
    [updateColumnOrder] if the current (reconciled) pin list had it, and
    after [setColumnVisibility], [setColumnPinning] and
    [updateColumnPinning] exactly when the value given to them hides,
    respectively pins, no column that the untouched field pins,
    respectively hides. *)
Theorem pins_visible_after_mutation (cfg : ColumnsConfig) :
  (∀ visibility, Forall pins_visible (updateColumnVisibility cfg visibility)) ∧
  (∀ updater, Forall pins_visible (columnVisibilityUpdater cfg updater)) ∧
  (∀ order, pins_visible cfg → Forall pins_visible (setColumnOrder cfg order)) ∧
  (∀ sizing dt, pins_visible cfg →
     Forall pins_visible (changes (elapse dt (setColumnSizing sizing (mount cfg))))) ∧
  (∀ order,
     (∀ col, col ∈ default [] (left (columnPinning cfg)) →
             columnVisibility cfg !! col ≠ Some false) →
     Forall pins_visible (updateColumnOrder cfg order)) ∧
  (∀ visibility,
     Forall pins_visible (setColumnVisibility cfg visibility) ↔
     ∀ col, col ∈ pinnedLeft cfg → visibility !! col ≠ Some false) ∧
  (∀ pinning,
     Forall pins_visible (setColumnPinning cfg pinning) ↔
     ∀ col, col ∈ default [] (left pinning) → columnVisibility cfg !! col ≠ Some false) ∧
  (∀ pinning,
     Forall pins_visible (updateColumnPinning cfg pinning) ↔
     ∀ col, col ∈ default [] (left pinning) → columnVisibility cfg !! col ≠ Some false) ∧
  (∀ c, Forall pins_visible (setColumnsConfig c) ↔ pins_visible c).
Proof.
  assert (Hupdate : ∀ visibility,
            Forall pins_visible (updateColumnVisibility cfg visibility)).
  { intros visibility. rewrite updateColumnVisibility_emits.
    apply Forall_singleton_iff, pins_visible_mk. simpl.
    by intros col [? _]%list_elem_of_filter. }
  refine (conj Hupdate (conj _ (conj _ (conj _ (conj _ (conj _ (conj _ (conj _ _)))))))).
  - intros updater. apply Hupdate.
  - intros order Hcfg. by apply Forall_singleton_iff.
  - intros sizing dt Hcfg. unfold elapse, setColumnSizing, mount. simpl.
    rewrite !filter_cons, !filter_nil.
    repeat case_decide; simpl; try tauto;
      (by apply Forall_singleton_iff) || constructor.
  - intros order Hpins. rewrite updateColumnOrder_emits.
    apply Forall_singleton_iff, pins_visible_mk. simpl.
    intros col [Hcol _]%list_elem_of_filter. by apply Hpins.
  - intros visibility. unfold setColumnVisibility, onChange.
    by rewrite Forall_singleton_iff.
  - intros pinning. unfold setColumnPinning, onChange.
    by rewrite Forall_singleton_iff.
  - intros pinning. rewrite updateColumnPinning_emits.
    by rewrite Forall_singleton_iff.
  - intros c. unfold setColumnsConfig, onChange. by rewrite Forall_singleton_iff.
Qed.

(** A configuration that pins [x] and hides nothing: hiding a column other
    than [x] keeps the invariant under every mutation. *)
Lemma pins_visible_after_mutation_witness :
  let cfg := Sample.configOf ["x"; "y"] ["x"] in
  Forall pins_visible (updateColumnVisibility cfg {[ "x" := false ]}) ∧
  Forall pins_visible (setColumnOrder cfg ["y"; "x"]) ∧
  Forall pins_visible (changes (elapse 500 (setColumnSizing {[ "x" := 100 ]} (mount cfg)))) ∧
  Forall pins_visible (updateColumnOrder cfg ["y"; "x"]) ∧
  Forall pins_visible (setColumnVisibility cfg {[ "y" := false ]}) ∧
  Forall pins_visible (setColumnPinning cfg (Sample.pins ["y"])) ∧
  Forall pins_visible (updateColumnPinning cfg (Sample.pins ["y"])).
Proof.
  intros cfg.
  destruct (pins_visible_after_mutation cfg)
    as (H1 & _ & H2 & H3 & H4 & H5 & H6 & H7 & _).
  assert (Hcfg : pins_visible cfg) by (intros col _; vm_compute; discriminate).
  split; [apply H1 |]. split; [by apply H2 |]. split; [by apply H3 |].
  split; [apply H4; intros col _; vm_compute; discriminate |].
  split; [apply H5 |]. 2: split; [apply H6 | apply H7].
  - intros col Hcol. vm_compute in Hcol.
    apply list_elem_of_singleton in Hcol as ->. vm_compute. discriminate.
  - intros col _. vm_compute. discriminate.
  - intros col _. vm_compute. discriminate.
Defined.

(** C2 (counterexample).  Starting from configurations that satisfy the
    invariant, each of [setColumnVisibility], [setColumnPinning],
    [updateColumnPinning] and [updateColumnOrder] can hand [onChange] a
    configuration that pins a hidden column. *)
Lemma direct_setters_pin_hidden_column :
  (pins_visible (Sample.configOf ["x"] ["x"]) ∧
   ¬ Forall pins_visible
       (setColumnVisibility (Sample.configOf ["x"] ["x"]) {[ "x" := false ]})) ∧
  (pins_visible (Cfg.mk (Some {[ "x" := false ]}) (Some ["x"]) None None) ∧
   ¬ Forall pins_visible
       (setColumnPinning (Cfg.mk (Some {[ "x" := false ]}) (Some ["x"]) None None)
          (Sample.pins ["x"])) ∧
   ¬ Forall pins_visible
       (updateColumnPinning (Cfg.mk (Some {[ "x" := false ]}) (Some ["x"]) None None)
          (Sample.pins ["x"]))) ∧
  (pins_visible (Cfg.mk (Some {[ "thumbnail" := false ]}) (Some ["name"])
                   (Some (Sample.pins ["name"])) None) ∧
   ¬ Forall pins_visible
       (updateColumnOrder (Cfg.mk (Some {[ "thumbnail" := false ]}) (Some ["name"])
                             (Some (Sample.pins ["name"])) None)
          ["thumbnail"; "name"])).
Proof.
  assert (Hbad : ∀ c col, col ∈ pinnedLeft c → isHidden c col → ¬ Forall pins_visible [c]).
  { intros c col Hpin Hhid Hall.
    apply (proj1 (Forall_singleton_iff _ _)) in Hall. by apply (Hall col). }
  split; [| split].
  - split; [intros col _; vm_compute; discriminate |].
    apply (Hbad _ "x"); [by apply (bool_decide_unpack _) | reflexivity].
  - split; [intros col Hcol; by apply elem_of_nil in Hcol |].
    split.
    + apply (Hbad _ "x"); [by apply (bool_decide_unpack _) | reflexivity].
    + rewrite updateColumnPinning_emits.
      apply (Hbad _ "x"); [by apply (bool_decide_unpack _) | reflexivity].
  - split.
    + intros col Hcol. vm_compute in Hcol.
      apply list_elem_of_singleton in Hcol as ->. vm_compute. discriminate.
    + apply (Hbad _ "thumbnail"); [by apply (bool_decide_unpack _) | reflexivity].
Qed.

(** ** Default column reconciliation *)

Lemma findIndex_from_split {A} (p : A → bool) (i : Z) (l1 : list A) (x : A) (l2 : list A) :
  (∀ y, y ∈ l1 → p y = false) → p x = true →
  Js.findIndex_from p i (l1 ++ x :: l2) = i + Z.of_nat (length l1).
Proof.
  revert i. induction l1 as [|y l1 IH]; intros i Hl1 Hx; simpl.
  - rewrite Hx. lia.
  - rewrite (Hl1 y) by apply list_elem_of_here.
    rewrite IH; [lia | | done].
    intros z Hz. apply Hl1. by apply list_elem_of_further.
Qed.

Lemma indexOf_split (l1 l2 : list string) (x : string) :
  x ∉ l1 → Js.indexOf (l1 ++ x :: l2) x = Z.of_nat (length l1).
Proof.
  intros Hx. unfold Js.indexOf, Js.findIndex.
  rewrite findIndex_from_split; [lia | | by apply bool_decide_eq_true_2].
  intros y Hy. apply bool_decide_eq_false_2. by intros ->.
Qed.

Lemma splice_insert_after {A} (l1 l2 : list A) (x y : A) :
  Js.splice_insert (Z.of_nat (length l1) + 1) y (l1 ++ x :: l2) = l1 ++ x :: y :: l2.
Proof.
  unfold Js.splice_insert.
  rewrite bool_decide_eq_false_2 by lia.
  rewrite length_app. simpl length.
  replace (Z.to_nat (Z.min _ _)) with (length (l1 ++ [x])) by (rewrite length_app; simpl; lia).
  rewrite (cons_middle x l1 l2), app_assoc.
  rewrite take_app_length, drop_app_length. by rewrite <- app_assoc.
Qed.

(** What one step does to the order. *)
Lemma reconcile_column_order (o : list string) (p : ColumnPinningState)
    (col : string) (i : Z) :
  (col ∈ o → (reconcile_column (o, p) col i).1 = o) ∧
  (col ∉ o →
   (Js.at_index defaultOrder (i - 1) = None ∨
    ∃ before, Js.at_index defaultOrder (i - 1) = Some before ∧ before ∉ o) →
   (reconcile_column (o, p) col i).1 = col :: o) ∧
  (col ∉ o →
   ∀ before, Js.at_index defaultOrder (i - 1) = Some before → before ∈ o →
   ∃ l1 l2, o = (l1 ++ before :: l2) ∧ (before ∉ l1) ∧
            (reconcile_column (o, p) col i).1 = (l1 ++ before :: col :: l2)).
Proof.
  unfold reconcile_column. split; [| split].
  - intros Hin. by apply includes_true in Hin as ->.
  - intros Hout Hbefore. apply includes_false in Hout as ->. simpl.
    destruct Hbefore as [-> | (before & -> & Hb)]; [done |].
    apply includes_false in Hb as ->. by rewrite orb_true_r.
  - intros Hout before Hat Hb. apply includes_false in Hout as ->. simpl.
    rewrite Hat. apply at_index_defaultOrder in Hat as [-> _].
    pose proof Hb as ->%includes_true. simpl.
    apply list_elem_of_split_l in Hb as (l1 & l2 & -> & Hl1).
    exists l1, l2. split; [done | split; [done |]].
    rewrite indexOf_split by done. apply splice_insert_after.
Qed.

(** A step leaves the order alone or inserts the column somewhere. *)
Lemma reconcile_column_inserts (o : list string) (p : ColumnPinningState)
    (col : string) (i : Z) :
  (col ∈ o ∧ (reconcile_column (o, p) col i).1 = o) ∨
  ((col ∉ o) ∧
   ∃ l1 l2, o = (l1 ++ l2) ∧ (reconcile_column (o, p) col i).1 = (l1 ++ col :: l2)).
Proof.
  destruct (reconcile_column_order o p col i) as (Hin & Hfront & Hafter).
  destruct (decide (col ∈ o)) as [Hcol | Hcol]; [left; by auto | right].
  split; [done |].
  destruct (Js.at_index defaultOrder (i - 1)) as [before|] eqn:Hat.
  - destruct (decide (before ∈ o)) as [Hb | Hb].
    + destruct (Hafter Hcol before eq_refl Hb) as (l1 & l2 & -> & _ & ->).
      exists (l1 ++ [before]), l2. by rewrite <- !app_assoc.
    + exists [], o. split; [done |]. apply Hfront; [done |]. right. eauto.
  - exists [], o. split; [done |]. apply Hfront; [done |]. by left.
Qed.

Lemma forEach_from_prefix {A S} (I : list A → S → Prop) (f : S → A → Z → S)
    (arr : list A) :
  ∀ (pre : list A) (i : Z) (st : S),
    I pre st →
    (∀ pre' x post j st',
       pre ++ arr = pre' ++ x :: post → I pre' st' → I (pre' ++ [x]) (f st' x j)) →
    I (pre ++ arr) (Js.forEach_from f i arr st).
Proof.
  induction arr as [|x rest IH]; intros pre i st Hst Hstep; simpl.
  - by rewrite app_nil_r.
  - rewrite (cons_middle x pre rest), app_assoc. apply IH.
    + by apply (Hstep pre x rest).
    + intros pre' y post j st' Heq. apply (Hstep pre' y post).
      by rewrite <- Heq, <- app_assoc.
Qed.

Lemma defaultOrder_NoDup : NoDup defaultOrder.
Proof. by apply (bool_decide_unpack _). Qed.

Lemma filter_all {A} (P : A → Prop) `{∀ x, Decision (P x)} (l : list A) :
  (∀ x, x ∈ l → P x) → filter P l = l.
Proof.
  induction l as [|x l IH]; intros Hall; [done |].
  rewrite filter_cons_True by apply Hall, list_elem_of_here.
  f_equal. apply IH. intros y Hy. by apply Hall, list_elem_of_further.
Qed.

(** The order after reconciliation: the persisted ids as they were, and
    the default ids that were missing, each once. *)
Lemma reconcile_order_invariant (persisted : list string) (p : ColumnPinningState) :
  filter (λ x, x ∈ persisted) (reconcile persisted p).1 = persisted ∧
  (reconcile persisted p).1 ≡ₚ filter (λ c, c ∉ persisted) defaultOrder ++ persisted.
Proof.
  unfold reconcile, Js.forEach.
  apply (forEach_from_prefix
           (λ done st, filter (λ x, x ∈ persisted) st.1 = persisted ∧
                       st.1 ≡ₚ filter (λ c, c ∉ persisted) done ++ persisted)
           reconcile_column defaultOrder [] 0 (persisted, p)).
  - simpl. split; [| done]. by apply filter_all.
  - intros done col post j [o q] Hsplit [Hkept Hperm]. simpl in Hkept, Hperm.
    assert (Hfresh : col ∉ done).
    { pose proof defaultOrder_NoDup as Hnd. simpl in Hsplit. rewrite Hsplit in Hnd.
      apply NoDup_app in Hnd as (_ & Hdisj & _).
      intros Hin. apply (Hdisj col Hin), list_elem_of_here. }
    rewrite filter_app, (filter_singleton _ col []).
    destruct (reconcile_column_inserts o q col j)
      as [[Hcol ->] | (Hcol & l1 & l2 & -> & ->)].
    + assert (col ∈ persisted) as Hpers.
      { rewrite Hperm in Hcol. apply elem_of_app in Hcol as [Hcol | Hcol]; [| done].
        apply list_elem_of_filter in Hcol as [_ Hcol]. by destruct Hfresh. }
      rewrite decide_False by tauto. by rewrite app_nil_r.
    + assert (col ∉ persisted) as Hpers.
      { intros Hin. apply Hcol. rewrite Hperm. apply elem_of_app. by right. }
      rewrite decide_True by done. split.
      * rewrite filter_app, filter_cons_False by done.
        by rewrite <- filter_app.
      * rewrite <- Permutation_middle, Hperm.
        rewrite <- app_assoc. simpl. apply Permutation_middle.
Qed.


(** C6.  Reconciliation runs the five default ids through one step each, in
    the canonical sequence.  A step leaves the order alone when the id is in
    it; otherwise it puts the id at the very front when the id has no
    canonical predecessor or the predecessor is not in the order, and right
    after the first occurrence of the predecessor when it is.  The resulting
    order holds all five default ids; removing from it the ids that were not
    persisted gives the persisted order back, and it is the persisted order
    with each missing default id added exactly once. *)
Theorem reconcile_inserts_missing_defaults
    (persisted : list string) (pinning : ColumnPinningState) :
  reconcile persisted pinning =
    reconcile_column
      (reconcile_column
         (reconcile_column
            (reconcile_column
               (reconcile_column (persisted, pinning) "thumbnail" 0) "name" 1)
            "subType" 2)
         "status" 3)
      "tags" 4 ∧
  (∀ (o : list string) (p : ColumnPinningState) (col : string) (i : Z),
     (col ∈ o → (reconcile_column (o, p) col i).1 = o) ∧
     (col ∉ o →
      (Js.at_index defaultOrder (i - 1) = None ∨
       ∃ before, Js.at_index defaultOrder (i - 1) = Some before ∧ before ∉ o) →
      (reconcile_column (o, p) col i).1 = col :: o) ∧
     (col ∉ o →
      ∀ before, Js.at_index defaultOrder (i - 1) = Some before → before ∈ o →
      ∃ l1 l2, o = (l1 ++ before :: l2) ∧ (before ∉ l1) ∧
               (reconcile_column (o, p) col i).1 = (l1 ++ before :: col :: l2))) ∧
  (∀ col, col ∈ defaultOrder → col ∈ (reconcile persisted pinning).1) ∧
  filter (λ x, x ∈ persisted) (reconcile persisted pinning).1 = persisted ∧
  (reconcile persisted pinning).1 ≡ₚ
    filter (λ c, c ∉ persisted) defaultOrder ++ persisted ∧
  (reconcile ["custom1"] pinning).1 =
    ["thumbnail"; "name"; "subType"; "status"; "tags"; "custom1"].
Proof.
  destruct (reconcile_order_invariant persisted pinning) as [Hkept Hperm].
  split; [reflexivity |].
  split; [apply reconcile_column_order |].
  split; [| split; [exact Hkept | split; [exact Hperm | reflexivity]]].
  intros col Hcol. rewrite Hperm. apply elem_of_app.
  destruct (decide (col ∈ persisted)); [by right | left].
  by apply list_elem_of_filter.
Qed.

(** C7 (as the code has it).  When a step inserts a missing default id, it
    also prepends the id to the left pin list if the id has a canonical
    successor and that successor is in the left pin list, whether or not
    the successor is in the order; if there is no canonical successor, or
    it is not left-pinned, the step leaves the pinning as it is. *)
Theorem reconcile_column_pins_with_successor
    (o : list string) (p : ColumnPinningState) (col : string) (i : Z) :
  col ∉ o →
  (∀ after pinned,
     Js.at_index defaultOrder (i + 1) = Some after →
     left p = Some pinned → after ∈ pinned →
     (reconcile_column (o, p) col i).2 =
       {| left := Some (col :: pinned); right := right p |}) ∧
  ((∀ after, Js.at_index defaultOrder (i + 1) = Some after →
             after ∉ default [] (left p)) →
   (reconcile_column (o, p) col i).2 = p).
Proof.
  intros Hcol. rewrite reconcile_column_pinning.
  apply includes_false in Hcol as ->. split.
  - intros after pinned -> -> Hafter. by apply includes_true in Hafter as ->.
  - intros Hnot.
    destruct (Js.at_index defaultOrder (i + 1)) as [after|]; [| done].
    destruct (left p) as [pinned|] eqn:Hleft; [| done].
    specialize (Hnot after eq_refl). simpl in Hnot.
    by apply includes_false in Hnot as ->.
Qed.

(** [thumbnail] missing from an order whose [name] is pinned gets pinned
    with it; [tags], which has no successor, does not change the pinning. *)
Lemma reconcile_column_pins_with_successor_witness :
  (reconcile_column (["name"], Sample.pins ["name"]) "thumbnail" 0).2 =
    Sample.pins ["thumbnail"; "name"] ∧
  (reconcile_column (["name"], Sample.pins ["name"]) "tags" 4).2 =
    Sample.pins ["name"].
Proof.
  split.
  - refine (proj1 (reconcile_column_pins_with_successor
                     ["name"] (Sample.pins ["name"]) "thumbnail" 0 _)
              "name" ["name"] eq_refl eq_refl _);
      by apply (bool_decide_unpack _).
  - refine (proj2 (reconcile_column_pins_with_successor
                     ["name"] (Sample.pins ["name"]) "tags" 4 _) _).
    + by apply (bool_decide_unpack _).
    + intros after Hafter. discriminate Hafter.
Defined.

(** C7 (counterexample).  [name] is pinned but is not in the order: the
    step that inserts [thumbnail] pins it all the same. *)
Lemma reconcile_pins_when_successor_not_in_order :
  let before : list string * ColumnPinningState := ([], Sample.pins ["name"]) in
  let after := reconcile_column before "thumbnail" 0 in
  Js.at_index defaultOrder (0 + 1) = Some "name" ∧
  ("name" ∉ before.1) ∧
  ("name" ∉ after.1) ∧
  after.2 = Sample.pins ["thumbnail"; "name"] ∧
  after.2 ≠ before.2 ∧
  (reconcile [] (Sample.pins ["name"])).2 = Sample.pins ["thumbnail"; "name"].
Proof.
  simpl. repeat split; try reflexivity; try discriminate;
    by apply (bool_decide_unpack _).
Qed.

(** ** Debounced sizing *)

Lemma elapse_idle (st : Store) (dt : Z) :
  timers st = [] →
  elapse dt st =
    {| config := config st; internalColumnSizing := internalColumnSizing st;
       resizingTimeoutRef := resizingTimeoutRef st; clock := clock st + dt;
       timers := []; nextHandle := nextHandle st; changes := changes st |}.
Proof. intros Hidle. unfold elapse. by rewrite Hidle. Qed.

Lemma elapse_waits (st : Store) (t : Timer) (dt : Z) :
  timers st = [t] → clock st + dt < due t →
  elapse dt st =
    {| config := config st; internalColumnSizing := internalColumnSizing st;
       resizingTimeoutRef := resizingTimeoutRef st; clock := clock st + dt;
       timers := [t]; nextHandle := nextHandle st; changes := changes st |}.
Proof.
  intros Ht Hdue. unfold elapse. rewrite Ht, !filter_cons, !filter_nil.
  repeat case_decide; first [lia | tauto | reflexivity].
Qed.

Lemma elapse_fires (st : Store) (t : Timer) (dt : Z) :
  timers st = [t] → due t ≤ clock st + dt →
  elapse dt st =
    {| config := config st; internalColumnSizing := None;
       resizingTimeoutRef := resizingTimeoutRef st; clock := clock st + dt;
       timers := []; nextHandle := nextHandle st;
       changes := changes st ++
                  [withSizing (capturedConfig (callback t)) (capturedSizing (callback t))] |}.
Proof.
  intros Ht Hdue. unfold elapse. rewrite Ht, !filter_cons, !filter_nil.
  repeat case_decide; first [lia | tauto | reflexivity].
Qed.

Lemma gesturePending_start (st : Store) (sizing : ColumnSizingState) :
  timers st = [] →
  gesturePending (changes st) (config st) sizing (setColumnSizing sizing st).
Proof.
  intros Hidle. exists (nextHandle st). unfold setColumnSizing. simpl.
  rewrite Hidle. by destruct (resizingTimeoutRef st).
Qed.

Lemma gesturePending_next base cfg sizing (st : Store) (dt : Z)
    (sizing' : ColumnSizingState) :
  gesturePending base cfg sizing st → 0 ≤ dt < quietPeriod →
  gesturePending base cfg sizing' (setColumnSizing sizing' (elapse dt st)).
Proof.
  intros (h & Ht & Href & Hint & Hch & Hcfg) Hdt.
  rewrite (elapse_waits st _ dt Ht) by (simpl; lia).
  exists (nextHandle st). unfold setColumnSizing. simpl.
  rewrite Href. unfold clearTimeout. rewrite filter_cons, filter_nil. simpl.
  rewrite decide_False by (intros Hne; by apply Hne).
  by rewrite Hch, Hcfg.
Qed.

Lemma gesturePending_gesture base cfg (calls : list (Z * ColumnSizingState)) :
  Forall (λ c, 0 ≤ c.1 < quietPeriod) calls →
  ∀ sizing st,
    gesturePending base cfg sizing st →
    gesturePending base cfg (foldl (λ _ c, c.2) sizing calls)
      (foldl (λ st' c, setColumnSizing c.2 (elapse c.1 st')) st calls).
Proof.
  induction 1 as [|[dt sizing'] calls Hdt _ IH]; intros sizing st Hst; [done |].
  simpl. apply IH. by apply gesturePending_next with sizing.
Qed.

(** C8.  A gesture on an idle store: a first [setColumnSizing], then
    further calls, each less than the quiet period after the one before.
    When the last call returns nothing has been handed to [onChange] and
    reads give the last value.  That stays so for as long as less than the
    quiet period has passed since the last call; once the quiet period has
    passed there has been exactly one call to [onChange], with the
    configuration of the render and the sizing of the last call, the overlay
    is cleared and reads give the sizing of the configuration; no further
    call to [onChange] follows however long one waits. *)
Theorem setColumnSizing_commits_once_after_quiet_period
    (st0 : Store) (first : ColumnSizingState) (calls : list (Z * ColumnSizingState)) :
  timers st0 = [] →
  Forall (λ c, 0 ≤ c.1 < quietPeriod) calls →
  let st := gesture first calls st0 in
  let last := lastSizing first calls in
  changes st = changes st0 ∧
  columnSizing st = last ∧
  (∀ dt, 0 ≤ dt < quietPeriod →
     changes (elapse dt st) = changes st0 ∧ columnSizing (elapse dt st) = last) ∧
  (∀ dt, quietPeriod ≤ dt →
     changes (elapse dt st) = changes st0 ++ [withSizing (config st0) last] ∧
     internalColumnSizing (elapse dt st) = None ∧
     columnSizing (elapse dt st) = columnsSizingExternal (config st0) ∧
     (∀ cfg', columnSizing (rerender cfg' (elapse dt st)) = columnsSizingExternal cfg') ∧
     (∀ dt', changes (elapse dt' (elapse dt st)) =
             changes st0 ++ [withSizing (config st0) last])).
Proof.
  intros Hidle Hcalls st last.
  assert (gesturePending (changes st0) (config st0) last st)
    as (h & Ht & Href & Hint & Hch & Hcfg).
  { apply gesturePending_gesture; [done |]. by apply gesturePending_start. }
  split; [done |]. split; [unfold columnSizing; by rewrite Hint |]. split.
  - intros dt Hdt. rewrite (elapse_waits st _ dt Ht) by (simpl; lia).
    unfold columnSizing. simpl. by rewrite Hint.
  - intros dt Hdt. rewrite (elapse_fires st _ dt Ht) by (simpl; lia).
    unfold columnSizing. simpl. rewrite Hch, Hcfg.
    repeat split.
Qed.

(** [setSizing({a: 100})], then [setSizing({a: 120})] 200 ms later on a
    freshly mounted store: nothing is committed 499 ms after the second
    call, and one commit with [{a: 120}] has happened 500 ms after it. *)
Lemma setColumnSizing_commits_once_witness :
  let cfg := Cfg.mk None (Some ["a"]) None (Some {[ "a" := 80 ]}) in
  let st := setColumnSizing {[ "a" := 120 ]}
              (elapse 200 (setColumnSizing {[ "a" := 100 ]} (mount cfg))) in
  changes st = [] ∧
  columnSizing st = {[ "a" := 120 ]} ∧
  changes (elapse 499 st) = [] ∧
  changes (elapse 500 st) = [withSizing cfg {[ "a" := 120 ]}] ∧
  internalColumnSizing (elapse 500 st) = None ∧
  columnSizing (elapse 500 st) = {[ "a" := 80 ]}.
Proof.
  intros cfg st.
  destruct (setColumnSizing_commits_once_after_quiet_period
              (mount cfg) {[ "a" := 100 ]} [(200, {[ "a" := 120 ]})])
    as (H1 & H2 & H3 & H4).
  - reflexivity.
  - constructor; [simpl; unfold quietPeriod; lia | constructor].
  - destruct (H3 499) as [H5 _]; [unfold quietPeriod; lia |].
    destruct (H4 500) as (H6 & H7 & H8 & _); [unfold quietPeriod; lia |].
    repeat split; assumption.
Defined.

(** * Further properties of the sort strategies *)

(** X1.  Without enum options and with type [boolean] the comparator is a
    consistent one: it orders rows whose cell is [true] after all others
    (any other cell value counts as [false]), answers [0] exactly when the
    two rows agree on that, and swapping the rows negates the answer. *)
Theorem attribSort_boolean_consistent
    (getCellValue : TableRow → string → Js.Value)
    (sortingFns_datetime sortingFns_alphanumeric : SortingFn)
    (data : AttributeData) (rowA rowB : Row) (columnId : string) :
  enum data = None → type data = Some "boolean" →
  let cmp x y :=
    attribSort getCellValue sortingFns_datetime sortingFns_alphanumeric
      x y columnId (Some data) in
  let isTrue r := getCellValue (original r) columnId = Js.VBool true in
  cmp rowA rowB = - cmp rowB rowA ∧
  (cmp rowA rowB = 1 ↔ isTrue rowA ∧ ¬ isTrue rowB) ∧
  (cmp rowA rowB = -1 ↔ ¬ isTrue rowA ∧ isTrue rowB) ∧
  (cmp rowA rowB = 0 ↔ (isTrue rowA ↔ isTrue rowB)).
Proof.
  intros Henum Htype. unfold attribSort. simpl. rewrite Henum, Htype.
  rewrite bool_decide_eq_false_2 by discriminate.
  rewrite bool_decide_eq_true_2 by done.
  unfold Js.strict_eq. repeat case_bool_decide; repeat split; intros; (lia || tauto).
Qed.

Lemma attribSort_boolean_consistent_witness :
  let flag (b : bool) : Row :=
    {| id := "r"; original := {| name := "r"; label := None; path := None;
                                 isLoading := None;
                                 attrib := {[ "attrib_done" := Js.VBool b ]} |} |} in
  let cmp x y :=
    attribSort Sample.cellValue (Sample.constantSort 0) (Sample.constantSort 0)
      x y "attrib_done" (Some {| type := Some "boolean"; enum := None |}) in
  cmp (flag true) (flag false) = 1 ∧ cmp (flag false) (flag true) = -1.
Proof.
  intros flag cmp.
  destruct (attribSort_boolean_consistent Sample.cellValue (Sample.constantSort 0)
              (Sample.constantSort 0) {| type := Some "boolean"; enum := None |}
              (flag true) (flag false) "attrib_done" eq_refl eq_refl)
    as (Hanti & Hone & _ & _).
  assert (H1 : cmp (flag true) (flag false) = 1).
  { apply Hone. split; [reflexivity | vm_compute; discriminate]. }
  split; [exact H1 |]. unfold cmp in *. lia.
Defined.

Lemma findIndex_from_found {A} (p : A → bool) (i : Z) (arr : list A) :
  (∃ x, x ∈ arr ∧ p x = true) → i ≤ Js.findIndex_from p i arr.
Proof.
  intros (x & Hx & Hp). revert i.
  induction arr as [|y rest IH]; intros i; [by apply elem_of_nil in Hx |].
  simpl. destruct (p y) eqn:Hy; [lia |].
  apply elem_of_cons in Hx as [-> | Hx]; [congruence |].
  specialize (IH Hx (i + 1)). lia.
Qed.

(** X2.  With enum options the declared type plays no part, and a value
    that is not among the options has index [-1]: compared with a row whose
    value is an option, the row with the unknown value gets [1] as first
    argument and [-1] as second, whatever the type of the attribute and
    whatever the library comparators are. *)
Theorem attribSort_enum_unknown_value
    (getCellValue : TableRow → string → Js.Value)
    (sortingFns_datetime sortingFns_alphanumeric : SortingFn)
    (ty : option string) (options : list EnumOption)
    (unknown known : Row) (columnId : string) :
  (∀ o, o ∈ options → value o ≠ getCellValue (original unknown) columnId) →
  (∃ o, o ∈ options ∧ value o = getCellValue (original known) columnId) →
  let cmp x y :=
    attribSort getCellValue sortingFns_datetime sortingFns_alphanumeric
      x y columnId (Some {| type := ty; enum := Some options |}) in
  cmp unknown known = 1 ∧ cmp known unknown = -1.
Proof.
  intros Hunknown (o & Ho & Hval). simpl.
  rewrite !(attribSort_enum _ _ _ _ options) by done.
  assert (Hu : enumIndex getCellValue options columnId unknown = -1).
  { apply findIndex_from_none. intros o' Ho'.
    apply bool_decide_eq_false_2. by apply Hunknown. }
  assert (Hk : 0 ≤ enumIndex getCellValue options columnId known).
  { unfold enumIndex, Js.findIndex. apply findIndex_from_found.
    exists o. split; [done |]. by apply bool_decide_eq_true_2. }
  rewrite Hu. split; case_bool_decide; lia.
Qed.

Lemma attribSort_enum_unknown_value_witness :
  let cmp x y :=
    attribSort Sample.cellValue (Sample.constantSort 0) (Sample.constantSort 0)
      x y "attrib_priority" (Some {| type := Some "datetime"; enum := Some Sample.enumABC |}) in
  cmp Sample.rowX Sample.rowA = 1 ∧ cmp Sample.rowA Sample.rowX = -1.
Proof.
  apply (attribSort_enum_unknown_value Sample.cellValue (Sample.constantSort 0)
           (Sample.constantSort 0) (Some "datetime") Sample.enumABC
           Sample.rowX Sample.rowA "attrib_priority").
  - intros o Ho. vm_compute in Ho.
    repeat (apply elem_of_cons in Ho as [-> | Ho]; [vm_compute; discriminate |]).
    by apply elem_of_nil in Ho.
  - exists {| value := Js.VStr "A"; optionLabel := "A" |}.
    split; [apply list_elem_of_here | reflexivity].
Defined.

(** ** Sorting with the loading decorator *)



Section LoadingLast.

Variable sortFn : SortingFn.
Variable columnId : string.

Local Abbreviation cmp := (λ a b : Row, withLoadingStateSort sortFn a b columnId).
Local Abbreviation loading := (λ r : Row, isLoading (original r) = Some true).




End LoadingLast.

(** * Further properties of the reconciliation *)

Lemma reconcile_complete (o : list string) (p : ColumnPinningState) (c : string) :
  c ∈ defaultOrder → c ∈ (reconcile o p).1.
Proof.
  intros Hc. destruct (reconcile_order_invariant o p) as [_ Hperm].
  rewrite Hperm. apply elem_of_app.
  destruct (decide (c ∈ o)); [by right | left]. by apply list_elem_of_filter.
Qed.

Lemma reconcile_fixpoint (o : list string) (p : ColumnPinningState) :
  (∀ c, c ∈ defaultOrder → c ∈ o) → reconcile o p = (o, p).
Proof.
  intros Hall. unfold reconcile, Js.forEach.
  apply (forEach_from_invariant (λ st, st = (o, p))); [done |].
  intros st col j Hcol ->. unfold reconcile_column.
  by rewrite (proj2 (includes_true o col)) by auto.
Qed.

(** X4.  Reconciliation is idempotent, and a configuration whose order
    already holds the five default ids goes through it unchanged, order and
    pinning alike. *)
Theorem reconcile_idempotent (o : list string) (p : ColumnPinningState) :
  ((∀ c, c ∈ defaultOrder → c ∈ o) → reconcile o p = (o, p)) ∧
  reconcile (reconcile o p).1 (reconcile o p).2 = reconcile o p.
Proof.
  split; [apply reconcile_fixpoint |].
  rewrite reconcile_fixpoint; [by destruct (reconcile o p) |].
  apply reconcile_complete.
Qed.

Lemma reconcile_idempotent_witness :
  reconcile ["thumbnail"; "x"; "name"; "tags"; "status"; "subType"] (Sample.pins ["name"]) =
    (["thumbnail"; "x"; "name"; "tags"; "status"; "subType"], Sample.pins ["name"]).
Proof.
  apply (proj1 (reconcile_idempotent _ _)).
  apply Forall_forall. by apply (bool_decide_unpack _).
Defined.

Lemma reconcile_column_front (o : list string) (p : ColumnPinningState) (col : string) :
  col ∉ o → (reconcile_column (o, p) col 0).1 = col :: o.
Proof.
  intros Hcol. apply reconcile_column_order; [done |]. by left.
Qed.

Lemma reconcile_column_after (l1 l2 : list string) (p : ColumnPinningState)
    (before col : string) (i : Z) :
  Js.at_index defaultOrder (i - 1) = Some before →
  before ∉ l1 → col ∉ l1 ++ before :: l2 →
  (reconcile_column (l1 ++ before :: l2, p) col i).1 = l1 ++ before :: col :: l2.
Proof.
  intros Hat Hbefore Hcol. unfold reconcile_column.
  apply includes_false in Hcol as ->. simpl. rewrite Hat.
  apply at_index_defaultOrder in Hat as [-> _].
  rewrite (proj2 (includes_true (l1 ++ before :: l2) before))
    by (apply elem_of_app; right; apply list_elem_of_here).
  simpl. rewrite indexOf_split by done. apply splice_insert_after.
Qed.

(** One step of the chain: the column goes right after its predecessor,
    which ends the prefix processed so far. *)
Ltac reconcile_after_step E l1 o p before Hout :=
  apply (f_equal fst) in E; cbn [fst] in E;
  let H := fresh "Hstep" in
  pose proof (reconcile_column_after l1 o p before) as H; cbn [app] in H;
  rewrite H in E;
  [ clear H
  | reflexivity
  | by apply (bool_decide_unpack _)
  | apply (Hout _ (l1 ++ [before])); by apply (bool_decide_unpack _) ].

(** X5.  A persisted order that holds none of the five default ids comes
    out of the reconciliation with the five of them in front, in the
    canonical sequence, followed by the persisted ids as they were. *)
Theorem reconcile_order_without_defaults (o : list string) (p : ColumnPinningState) :
  (∀ c, c ∈ defaultOrder → c ∉ o) →
  (reconcile o p).1 = defaultOrder ++ o.
Proof.
  intros Hnone.
  assert (Hout : ∀ c pre, c ∈ defaultOrder → c ∉ pre → c ∉ pre ++ o).
  { intros c pre Hc Hpre [?|?]%elem_of_app; [done | by apply (Hnone c)]. }
  unfold reconcile, Js.forEach, defaultOrder at 1. cbn [Js.forEach_from].
  destruct (reconcile_column (o, p) "thumbnail" 0) as [o1 p1] eqn:E1.
  apply (f_equal fst) in E1. cbn [fst] in E1.
  rewrite reconcile_column_front in E1
    by (apply (Hout _ []); by apply (bool_decide_unpack _)).
  subst o1.
  destruct (reconcile_column _ "name" _) as [o2 p2] eqn:E2.
  reconcile_after_step E2 (@nil string) o p1 "thumbnail" Hout. subst o2.
  destruct (reconcile_column _ "subType" _) as [o3 p3] eqn:E3.
  reconcile_after_step E3 ["thumbnail"] o p2 "name" Hout. subst o3.
  destruct (reconcile_column _ "status" _) as [o4 p4] eqn:E4.
  reconcile_after_step E4 ["thumbnail"; "name"] o p3 "subType" Hout. subst o4.
  destruct (reconcile_column _ "tags" _) as [o5 p5] eqn:E5.
  reconcile_after_step E5 ["thumbnail"; "name"; "subType"] o p4 "status" Hout.
  by subst o5.
Qed.

Lemma reconcile_order_without_defaults_witness :
  (reconcile ["custom1"; "attrib_fps"] (Sample.pins ["custom1"])).1 =
    ["thumbnail"; "name"; "subType"; "status"; "tags"; "custom1"; "attrib_fps"].
Proof.
  apply (reconcile_order_without_defaults ["custom1"; "attrib_fps"]).
  apply Forall_forall. by apply (bool_decide_unpack _).
Defined.

(** X6.  Reconciliation introduces no duplicate: an order without repeated
    ids has none afterwards either. *)
Theorem reconcile_order_NoDup (o : list string) (p : ColumnPinningState) :
  NoDup o → NoDup (reconcile o p).1.
Proof.
  intros Ho. destruct (reconcile_order_invariant o p) as [_ Hperm].
  rewrite Hperm. apply NoDup_app. split; [| split; [| done]].
  - apply NoDup_filter, defaultOrder_NoDup.
  - by intros c [? _]%list_elem_of_filter.
Qed.

Lemma reconcile_order_NoDup_witness :
  NoDup (reconcile ["name"; "custom1"] (Sample.pins [])).1.
Proof.
  apply reconcile_order_NoDup. by apply (bool_decide_unpack _).
Defined.

Lemma reconcile_pinning_shape (o : list string) (p : ColumnPinningState) :
  (∀ x : string, x ∈ o → x ∈ (reconcile o p).1) ∧
  right (reconcile o p).2 = right p ∧
  (left p = None → (reconcile o p).2 = p) ∧
  ∃ added : list string,
    default [] (left (reconcile o p).2) = added ++ default [] (left p) ∧
    ∀ c : string, c ∈ added → c ∈ defaultOrder ∧ c ∉ o.
Proof.
  unfold reconcile, Js.forEach.
  apply (forEach_from_invariant
           (λ st : list string * ColumnPinningState,
              (∀ x : string, x ∈ o → x ∈ st.1) ∧
              right st.2 = right p ∧
              (left p = None → st.2 = p) ∧
              ∃ added : list string,
                default [] (left st.2) = added ++ default [] (left p) ∧
                ∀ c : string, c ∈ added → c ∈ defaultOrder ∧ c ∉ o)).
  - simpl. repeat split; try done. exists []. split; [done |].
    intros c Hc. by apply elem_of_nil in Hc.
  - intros [o' p'] col j Hcol (Hgrow & Hright & Hnone & added & Hleft & Hadded).
    simpl in Hgrow, Hright, Hnone, Hleft.
    split.
    { intros x Hx. specialize (Hgrow x Hx).
      destruct (reconcile_column_inserts o' p' col j)
        as [[_ ->] | (_ & l1 & l2 & -> & ->)]; [done |].
      apply elem_of_app in Hgrow as [?|?]; apply elem_of_app; [by left | right].
      by apply list_elem_of_further. }
    assert (Hsame : right p' = right p ∧ (left p = None → p' = p) ∧
              ∃ added : list string,
                default [] (left p') = added ++ default [] (left p) ∧
                ∀ c : string, c ∈ added → c ∈ defaultOrder ∧ c ∉ o)
      by (split; [done | split; [done | by exists added]]).
    rewrite reconcile_column_pinning.
    destruct (Js.includes o' col) eqn:Hin; [exact Hsame |].
    apply includes_false in Hin.
    destruct (Js.at_index defaultOrder (j + 1)) as [after|]; [| exact Hsame].
    destruct (left p') as [pinned|] eqn:Hp'; [| by rewrite Hp'].
    destruct (Js.includes pinned after); [| by rewrite Hp'].
    simpl. split; [done |]. split.
    + intros Hp. rewrite (Hnone Hp) in Hp'. congruence.
    + exists (col :: added). simpl in Hleft. rewrite Hleft. split; [done |].
      intros c [-> | Hc]%elem_of_cons; [| by apply Hadded].
      split; [done |]. intros Ho. by apply Hin, Hgrow.
Qed.

(** X7.  Reconciliation never unpins and never touches the right pins: the
    left pin list it produces is the persisted one with default ids put in
    front, each of them a default id that was missing from the persisted
    order; a configuration without a left pin list keeps its pinning as it
    is. *)
Theorem reconcile_pinning_only_prepends (o : list string) (p : ColumnPinningState) :
  right (reconcile o p).2 = right p ∧
  (left p = None → (reconcile o p).2 = p) ∧
  ∃ added : list string,
    default [] (left (reconcile o p).2) = added ++ default [] (left p) ∧
    ∀ c : string, c ∈ added → c ∈ defaultOrder ∧ c ∉ o.
Proof. apply reconcile_pinning_shape. Qed.

(** * Further properties of the reconciling updaters *)

(** X8.  After [updateColumnOrder] the left pin list handed to [onChange] is
    a subsequence of the order handed over with it: the pinned ids stand in
    the pin list in the sequence they have in the order, and an order
    without repetition gives a pin list without repetition. *)
Theorem updateColumnOrder_pins_sublist
    (cfg : ColumnsConfig) (order : ColumnOrderState) (c : ColumnsConfig) :
  c ∈ updateColumnOrder cfg order →
  Cfg.columnOrder c = Some order ∧
  pinnedLeft c `sublist_of` order ∧
  (NoDup order → NoDup (pinnedLeft c)).
Proof.
  rewrite updateColumnOrder_emits. intros ->%list_elem_of_singleton.
  unfold pinnedLeft. simpl. split; [done |]. split.
  - apply sublist_filter.
  - apply NoDup_filter.
Qed.

Lemma updateColumnOrder_pins_sublist_witness :
  ∃ c, c ∈ updateColumnOrder (Sample.configOf ["a"; "b"; "c"] ["c"; "a"]) ["c"; "b"; "a"] ∧
       pinnedLeft c `sublist_of` ["c"; "b"; "a"].
Proof.
  eexists. split; [apply list_elem_of_here |].
  eapply updateColumnOrder_pins_sublist. apply list_elem_of_here.
Defined.

(** X9.  [updateColumnPinning] neither drops nor adds a column: the order it
    hands to [onChange] is a rearrangement of the current order, so it holds
    the five default ids, and an id that is pinned without being in the
    current order is not put into it. *)
Theorem updateColumnPinning_rearranges_order
    (cfg : ColumnsConfig) (pinning : ColumnPinningState) (c : ColumnsConfig) :
  c ∈ updateColumnPinning cfg pinning →
  ∃ order,
    Cfg.columnOrder c = Some order ∧
    order ≡ₚ columnOrder cfg ∧
    (∀ d, d ∈ defaultOrder → d ∈ order) ∧
    (∀ x, x ∈ default [] (left pinning) → x ∉ columnOrder cfg → x ∉ order).
Proof.
  rewrite updateColumnPinning_emits. intros ->%list_elem_of_singleton.
  eexists. split; [reflexivity |].
  assert (Hperm : filter (λ a, a ∈ default [] (left pinning)) (columnOrder cfg) ++
                  filter (λ a, a ∉ default [] (left pinning)) (columnOrder cfg)
                  ≡ₚ columnOrder cfg) by apply filter_app_complement.
  split; [exact Hperm |]. split.
  - intros d Hd. rewrite Hperm. by apply reconcile_complete.
  - intros x _ Hx. by rewrite Hperm.
Qed.

Lemma updateColumnPinning_rearranges_order_witness :
  ∃ c order,
    c ∈ updateColumnPinning (Sample.configOf ["a"; "b"] []) (Sample.pins ["zzz"; "b"]) ∧
    Cfg.columnOrder c = Some order ∧ "zzz" ∉ order.
Proof.
  eexists.
  destruct (updateColumnPinning_rearranges_order
              (Sample.configOf ["a"; "b"] []) (Sample.pins ["zzz"; "b"]) _
              (list_elem_of_here _ _)) as (order & Horder & _ & _ & Hnot).
  exists order. split; [apply list_elem_of_here |]. split; [exact Horder |].
  apply Hnot; by apply (bool_decide_unpack _).
Defined.

(** X10.  Hiding a pinned column unpins it for good: once
    [updateColumnVisibility] has been called with a visibility that maps a
    column to [false], a later [updateColumnVisibility] on the resulting
    configuration, whatever its visibility, hands over a pin list without
    that column - provided the column is not a default id missing from the
    persisted order, which the reconciliation may pin again. *)
Theorem hidden_column_stays_unpinned
    (cfg : ColumnsConfig) (visibility visibility' : VisibilityState)
    (x : string) (c c' : ColumnsConfig) :
  visibility !! x = Some false →
  x ∉ defaultOrder ∨ x ∈ columnOrderInit cfg →
  c ∈ updateColumnVisibility cfg visibility →
  c' ∈ updateColumnVisibility c visibility' →
  (x ∉ pinnedLeft c) ∧ (x ∉ pinnedLeft c').
Proof.
  intros Hhidden Hx.
  rewrite updateColumnVisibility_emits. intros ->%list_elem_of_singleton.
  rewrite updateColumnVisibility_emits. intros ->%list_elem_of_singleton.
  assert (Hfirst : x ∉ filter (λ col, visibility !! col ≠ Some false)
                         (default [] (left (columnPinning cfg)))).
  { by intros [? _]%list_elem_of_filter. }
  unfold pinnedLeft. simpl. split; [exact Hfirst |].
  intros [_ Hin]%list_elem_of_filter.
  unfold columnPinning at 1, columnOrderInit, columnPinningInit in Hin. simpl in Hin.
  destruct (reconcile_pinning_shape (default [] (Cfg.columnOrder cfg))
              {| left := Some (filter (λ col, visibility !! col ≠ Some false)
                                 (default [] (left (columnPinning cfg))));
                 right := right (columnPinning cfg) |})
    as (_ & _ & _ & added & Hleft & Hadded).
  simpl in Hleft. rewrite Hleft in Hin.
  apply elem_of_app in Hin as [Hin | Hin]; [| done].
  destruct (Hadded x Hin) as [Hdef Hmissing].
  destruct Hx as [Hx | Hx]; [done | by apply Hmissing].
Qed.

Lemma hidden_column_stays_unpinned_witness :
  ∃ c c',
    c ∈ updateColumnVisibility (Sample.configOf ["x"; "y"] ["x"; "y"]) {[ "x" := false ]} ∧
    c' ∈ updateColumnVisibility c {[ "x" := true ]} ∧
    "x" ∉ pinnedLeft c'.
Proof.
  do 2 eexists. split; [apply list_elem_of_here |]. split; [apply list_elem_of_here |].
  eapply (hidden_column_stays_unpinned
            (Sample.configOf ["x"; "y"] ["x"; "y"]) {[ "x" := false ]} {[ "x" := true ]} "x").
  - reflexivity.
  - left. by apply (bool_decide_unpack _).
  - apply list_elem_of_here.
  - apply list_elem_of_here.
Defined.

(** * Further properties of the debounced sizing *)

Lemma overlayMatchesTimer_setColumnSizing (sizing : ColumnSizingState) (st : Store) :
  overlayMatchesTimer st → overlayMatchesTimer (setColumnSizing sizing st).
Proof.
  intros [[Ht Hint] | (t & Ht & Href & Hint)]; right; unfold setColumnSizing; simpl.
  - rewrite Ht. eexists. split; [by destruct (resizingTimeoutRef st) | done].
  - rewrite Href, Ht. unfold clearTimeout. rewrite filter_cons, filter_nil.
    rewrite decide_False by (intros Hne; by apply Hne).
    eexists. by split.
Qed.

Lemma overlayMatchesTimer_elapse (dt : Z) (st : Store) :
  overlayMatchesTimer st → overlayMatchesTimer (elapse dt st).
Proof.
  intros [[Ht Hint] | (t & Ht & Href & Hint)].
  - left. by rewrite elapse_idle.
  - destruct (decide (due t ≤ clock st + dt)).
    + left. by rewrite (elapse_fires st t dt).
    + right. rewrite (elapse_waits st t dt) by (done || lia). by exists t.
Qed.

Lemma overlayMatchesTimer_handleEvent (st : Store) (ev : StoreEvent) :
  overlayMatchesTimer st → overlayMatchesTimer (handleEvent st ev).
Proof.
  destruct ev; simpl.
  - apply overlayMatchesTimer_setColumnSizing.
  - apply overlayMatchesTimer_setColumnSizing.
  - apply overlayMatchesTimer_elapse.
  - done.
Qed.

Lemma runEvents_snoc (events : list StoreEvent) (ev : StoreEvent) (st : Store) :
  runEvents (events ++ [ev]) st = handleEvent (runEvents events st) ev.
Proof. unfold runEvents. by rewrite foldl_app. Qed.

(** X11.  Whatever happens to a mounted provider - calls of the sizing
    setter or updater, time passing, new [config] props, in any order - at
    most one commit is waiting at any time; the overlay is set exactly
    while one is waiting and holds the value that commit will write. *)
Theorem store_keeps_one_timer (cfg : ColumnsConfig) (events : list StoreEvent) :
  let st := runEvents events (mount cfg) in
  (length (timers st) ≤ 1)%nat ∧ overlayMatchesTimer st.
Proof.
  simpl.
  assert (Hinv : overlayMatchesTimer (runEvents events (mount cfg))).
  { induction events as [|ev events IH] using rev_ind; [by left |].
    rewrite runEvents_snoc. by apply overlayMatchesTimer_handleEvent. }
  split; [| done].
  destruct Hinv as [[-> _] | (t & -> & _)]; simpl; lia.
Qed.

Lemma changes_handleEvent (st : Store) (ev : StoreEvent) :
  overlayMatchesTimer st →
  (length (changes (handleEvent st ev)) + length (timers (handleEvent st ev)) ≤
   length (changes st) + length (timers st) + if isSizingCall ev then 1 else 0)%nat.
Proof.
  assert (Hset : ∀ sizing,
            overlayMatchesTimer st →
            (length (changes (setColumnSizing sizing st)) +
             length (timers (setColumnSizing sizing st)) ≤
             length (changes st) + length (timers st) + 1)%nat).
  { intros sizing [[Ht _] | (t & Ht & Href & _)]; unfold setColumnSizing; simpl.
    - rewrite Ht. destruct (resizingTimeoutRef st); simpl; lia.
    - rewrite Href, Ht. unfold clearTimeout. rewrite filter_cons, filter_nil.
      rewrite decide_False by (intros Hne; by apply Hne). simpl. lia. }
  intros Hinv. destruct ev; simpl.
  - by apply Hset.
  - by apply Hset.
  - destruct Hinv as [[Ht _] | (t & Ht & _)].
    + rewrite elapse_idle by done. simpl. rewrite Ht. simpl. lia.
    + destruct (decide (due t ≤ clock st + dt)).
      * rewrite (elapse_fires st t dt) by done. simpl.
        rewrite length_app, Ht. simpl. lia.
      * rewrite (elapse_waits st t dt) by (done || lia). simpl. rewrite Ht. simpl. lia.
  - lia.
Qed.

(** X12.  The store never writes more often than it is asked to: after any
    sequence of events the number of calls made to [onChange] for sizing,
    plus the commit still waiting if there is one, is at most the number of
    calls of the sizing setter and updater. *)
Theorem store_commits_at_most_once_per_call
    (cfg : ColumnsConfig) (events : list StoreEvent) :
  let st := runEvents events (mount cfg) in
  (length (changes st) + length (timers st) ≤
   length (filter (λ ev, isSizingCall ev = true) events))%nat.
Proof.
  simpl. induction events as [|ev events IH] using rev_ind; [simpl; lia |].
  rewrite runEvents_snoc, filter_app, length_app.
  pose proof (changes_handleEvent (runEvents events (mount cfg)) ev) as Hstep.
  assert (Hinv : overlayMatchesTimer (runEvents events (mount cfg))).
  { clear. induction events as [|ev events IH] using rev_ind; [by left |].
    rewrite runEvents_snoc. by apply overlayMatchesTimer_handleEvent. }
  specialize (Hstep Hinv).
  rewrite (filter_singleton _ ev []).
  destruct (isSizingCall ev); case_decide; try done; simpl in *; lia.
Qed.

Lemma gesturePending_after_gesture (st0 : Store) (first : ColumnSizingState)
    (calls : list (Z * ColumnSizingState)) :
  timers st0 = [] → Forall (λ c, 0 ≤ c.1 < quietPeriod) calls →
  gesturePending (changes st0) (config st0) (lastSizing first calls)
    (gesture first calls st0).
Proof.
  intros Hidle Hcalls. apply gesturePending_gesture; [done |].
  by apply gesturePending_start.
Qed.

(** X13.  A new [config] prop that arrives while a gesture is waiting for
    its commit does not show in the sizing that is read, which stays the
    overlay, and does not reach the commit either: the commit hands
    [onChange] the configuration of the render that scheduled it, with the
    sizing replaced; only after it do reads give the sizing of the new
    configuration. *)
Theorem sizing_commit_uses_scheduling_render
    (st0 : Store) (first : ColumnSizingState) (calls : list (Z * ColumnSizingState))
    (cfg' : ColumnsConfig) (dt : Z) :
  timers st0 = [] →
  Forall (λ c, 0 ≤ c.1 < quietPeriod) calls →
  quietPeriod ≤ dt →
  let st := rerender cfg' (gesture first calls st0) in
  columnSizing st = lastSizing first calls ∧
  changes (elapse dt st) =
    changes st0 ++ [withSizing (config st0) (lastSizing first calls)] ∧
  columnSizing (elapse dt st) = columnsSizingExternal cfg'.
Proof.
  intros Hidle Hcalls Hdt st.
  destruct (gesturePending_after_gesture st0 first calls Hidle Hcalls)
    as (h & Ht & Href & Hint & Hch & Hcfg).
  split; [unfold st, columnSizing; simpl; by rewrite Hint |].
  rewrite (elapse_fires st _ dt Ht) by (simpl; lia).
  unfold columnSizing. simpl. by rewrite Hch.
Qed.

Lemma sizing_commit_uses_scheduling_render_witness :
  let old := Cfg.mk None (Some ["a"]) None (Some {[ "a" := 80 ]}) in
  let new := Cfg.mk None (Some ["b"; "a"]) None (Some {[ "a" := 90 ]}) in
  let st := rerender new (setColumnSizing {[ "a" := 120 ]} (mount old)) in
  columnSizing st = {[ "a" := 120 ]} ∧
  changes (elapse 500 st) = [Cfg.mk None (Some ["a"]) None (Some {[ "a" := 120 ]})] ∧
  columnSizing (elapse 500 st) = {[ "a" := 90 ]}.
Proof.
  intros old new st.
  exact (sizing_commit_uses_scheduling_render (mount old) {[ "a" := 120 ]} [] new 500
           eq_refl (List.Forall_nil _) ltac:(unfold quietPeriod; lia)).
Defined.

(** X14.  Two gestures on an idle store, the second beginning after the
    commit of the first (with a new [config] prop in between or not), give
    two calls to [onChange], in that order, each with the last sizing of its
    gesture and the configuration of the render it was made in. *)
Theorem two_gestures_commit_twice
    (st0 : Store) (first1 first2 : ColumnSizingState)
    (calls1 calls2 : list (Z * ColumnSizingState))
    (cfg' : ColumnsConfig) (dt1 dt2 : Z) :
  timers st0 = [] →
  Forall (λ c, 0 ≤ c.1 < quietPeriod) calls1 →
  Forall (λ c, 0 ≤ c.1 < quietPeriod) calls2 →
  quietPeriod ≤ dt1 → quietPeriod ≤ dt2 →
  changes (elapse dt2 (gesture first2 calls2
                         (rerender cfg' (elapse dt1 (gesture first1 calls1 st0))))) =
    changes st0 ++ [withSizing (config st0) (lastSizing first1 calls1);
                    withSizing cfg' (lastSizing first2 calls2)].
Proof.
  intros Hidle Hcalls1 Hcalls2 Hdt1 Hdt2.
  destruct (gesturePending_after_gesture st0 first1 calls1 Hidle Hcalls1)
    as (h & Ht & Href & Hint & Hch & Hcfg).
  rewrite (elapse_fires (gesture first1 calls1 st0) _ dt1 Ht) by (simpl; lia).
  simpl capturedConfig. simpl capturedSizing. rewrite Hch.
  match goal with |- context [gesture first2 calls2 ?s] => set (st1 := s) end.
  destruct (gesturePending_after_gesture st1 first2 calls2 eq_refl Hcalls2)
    as (h2 & Ht2 & _ & _ & Hch2 & _).
  rewrite (elapse_fires (gesture first2 calls2 st1) _ dt2 Ht2) by (simpl; lia).
  simpl. rewrite Hch2. simpl. by rewrite <- app_assoc.
Qed.

Lemma two_gestures_commit_twice_witness :
  let cfg := Cfg.mk None None None None in
  changes (elapse 600 (setColumnSizing {[ "a" := 2 ]}
                         (rerender cfg (elapse 500 (setColumnSizing {[ "a" := 1 ]}
                                                      (mount cfg)))))) =
    [withSizing cfg {[ "a" := 1 ]}; withSizing cfg {[ "a" := 2 ]}].
Proof.
  intros cfg.
  exact (two_gestures_commit_twice (mount cfg) {[ "a" := 1 ]} {[ "a" := 2 ]} [] [] cfg
           500 600 eq_refl (List.Forall_nil _) (List.Forall_nil _)
           ltac:(unfold quietPeriod; lia) ltac:(unfold quietPeriod; lia)).
Defined.



(** * Properties of the column builder *)

Lemma isIncluded_true (excluded : option (list string)) (x : string) :
  isIncluded excluded x = true ↔ x ∉ default [] excluded.
Proof.
  unfold isIncluded. destruct excluded as [ids|]; simpl.
  - rewrite negb_true_iff. apply includes_false.
  - split; [intros _ Hx; by apply elem_of_nil in Hx | done].
Qed.

Lemma attribIncluded_true (excluded : option (list string)) (a : ProjectTableAttribute) :
  attribIncluded excluded a = true ↔
  (("attrib_" +:+ Attribute.name a) ∉ default [] excluded) ∧
  ¬ (Attribute.builtin a = Some true ∧ "attrib" ∈ default [] excluded).
Proof.
  unfold attribIncluded.
  pose proof (isIncluded_true excluded ("attrib_" +:+ Attribute.name a)) as H1.
  pose proof (isIncluded_true excluded "attrib") as H2.
  destruct (isIncluded excluded ("attrib_" +:+ Attribute.name a));
    destruct (isIncluded excluded "attrib");
    destruct (Attribute.builtin a) as [[]|]; simpl;
    split; try done; try (intros [Ha Hb]); try (split; [tauto |]);
    try (intros [? ?]; first [discriminate | tauto]);
    first [ by apply H1 in Ha
          | exfalso; apply Hb; split; [done |];
            destruct (decide ("attrib" ∈ default [] excluded)); [done |];
            by apply H2 in n ].
Qed.

Section BuilderProperties.

Variable getCellValue : TableRow → string → Js.Value.
Variables sortingFns_datetime sortingFns_alphanumeric : SortingFn.
Variable localeCompare : string → string → Z.
Variable ROW_SELECTION_COLUMN_ID : string.

Local Abbreviation build :=
  (buildTreeTableColumns getCellValue sortingFns_datetime sortingFns_alphanumeric
     localeCompare ROW_SELECTION_COLUMN_ID).

Lemma build_ids (attribs : list ProjectTableAttribute) (showHierarchy : bool)
    (options : BuiltInFieldOptions) (excluded : option (list string)) :
  Column.id <$> build attribs showHierarchy options excluded None =
    (Some <$> filter (λ x, isIncluded excluded x = true)
                (builtInIds ROW_SELECTION_COLUMN_ID)) ++
    ((λ a, Some ("attrib_" +:+ Attribute.name a)) <$>
       filter (λ a, attribIncluded excluded a = true) attribs).
Proof.
  unfold buildTreeTableColumns. rewrite fmap_app. f_equal.
  - unfold staticColumns, builtInIds, pushIf.
    rewrite !filter_cons, filter_nil.
    destruct (isIncluded excluded ROW_SELECTION_COLUMN_ID);
      destruct (isIncluded excluded "thumbnail");
      destruct (isIncluded excluded "name");
      destruct (isIncluded excluded "status");
      destruct (isIncluded excluded "subType");
      destruct (isIncluded excluded "assignees");
      destruct (isIncluded excluded "tags"); reflexivity.
  - unfold attributeColumns. by rewrite <- list_fmap_compose.
Qed.

(** X16.  Without extra columns the builder gives the built-in columns in
    their fixed sequence, then the attribute columns in the sequence of the
    schema, leaving out what is excluded.  A column id is in the result
    exactly when it is not excluded and is a built-in id or the id
    [attrib_<name>] of an attribute of the schema that is not a built-in
    attribute excluded by the [attrib] sentinel. *)
Theorem buildTreeTableColumns_ids (attribs : list ProjectTableAttribute)
    (showHierarchy : bool) (options : BuiltInFieldOptions)
    (excluded : option (list string)) :
  Column.id <$> build attribs showHierarchy options excluded None =
    (Some <$> filter (λ x, isIncluded excluded x = true)
                (builtInIds ROW_SELECTION_COLUMN_ID)) ++
    ((λ a, Some ("attrib_" +:+ Attribute.name a)) <$>
       filter (λ a, attribIncluded excluded a = true) attribs) ∧
  ∀ x : string,
    Some x ∈ Column.id <$> build attribs showHierarchy options excluded None ↔
    (x ∉ default [] excluded) ∧
    (x ∈ builtInIds ROW_SELECTION_COLUMN_ID ∨
     ∃ a, a ∈ attribs ∧ x = "attrib_" +:+ Attribute.name a ∧
          ¬ (Attribute.builtin a = Some true ∧ "attrib" ∈ default [] excluded)).
Proof.
  split; [apply build_ids |].
  intros x. rewrite build_ids, elem_of_app, !list_elem_of_fmap. split.
  - intros [(y & [= <-] & Hy) | (a & [= ->] & Ha)].
    + apply list_elem_of_filter in Hy as [Hinc Hy].
      apply isIncluded_true in Hinc. by auto.
    + apply list_elem_of_filter in Ha as [Hinc Ha].
      apply attribIncluded_true in Hinc as [H1 H2]. split; [done |].
      right. by exists a.
  - intros [Hx [Hb | (a & Ha & -> & Hs)]].
    + left. exists x. split; [done |]. apply list_elem_of_filter.
      split; [by apply isIncluded_true | done].
    + right. exists a. split; [done |]. apply list_elem_of_filter.
      split; [by apply attribIncluded_true | done].
Qed.

Lemma addExtraColumn_inserts (allColumns : list ColumnDef) (extra : TreeTableExtraColumn) :
  ∃ l1 l2, allColumns = l1 ++ l2 ∧
           addExtraColumn allColumns extra = l1 ++ column extra :: l2.
Proof.
  unfold addExtraColumn. destruct (_ && _).
  - unfold Js.splice_insert. eexists _, _. split; [| reflexivity].
    by rewrite take_drop.
  - exists allColumns, []. by rewrite app_nil_r.
Qed.

Lemma forEach_addExtraColumn (extras : list TreeTableExtraColumn) :
  ∀ (i : Z) (acc : list ColumnDef),
    acc `sublist_of` Js.forEach_from (λ acc extra _, addExtraColumn acc extra) i extras acc ∧
    Js.forEach_from (λ acc extra _, addExtraColumn acc extra) i extras acc
      ≡ₚ acc ++ (column <$> extras).
Proof.
  induction extras as [|e extras IH]; intros i acc; simpl.
  - by rewrite app_nil_r.
  - destruct (IH (i + 1) (addExtraColumn acc e)) as [Hsub Hperm].
    destruct (addExtraColumn_inserts acc e) as (l1 & l2 & Hacc & Hadd).
    split.
    + etrans; [| exact Hsub]. rewrite Hadd, Hacc.
      apply sublist_app; [done |]. by apply sublist_cons.
    + rewrite Hperm, Hadd, Hacc. rewrite <- Permutation_middle.
      rewrite <- !app_assoc. simpl.
      by rewrite (Permutation_middle (l1 ++ l2) (column <$> extras) (column e)),
                 <- app_assoc.
Qed.

(** X17.  Extra columns are added to what the builder produces without
    them, never in place of it: the result holds the columns built without
    extras in their sequence, as a subsequence, plus every extra column,
    once for each time it is given. *)
Theorem buildTreeTableColumns_extras_added (attribs : list ProjectTableAttribute)
    (showHierarchy : bool) (options : BuiltInFieldOptions)
    (excluded : option (list string)) (extras : list TreeTableExtraColumn) :
  build attribs showHierarchy options excluded None
    `sublist_of` build attribs showHierarchy options excluded (Some extras) ∧
  build attribs showHierarchy options excluded (Some extras)
    ≡ₚ build attribs showHierarchy options excluded None ++ (column <$> extras) ∧
  length (build attribs showHierarchy options excluded (Some extras)) =
    (length (build attribs showHierarchy options excluded None) + length extras)%nat.
Proof.
  unfold buildTreeTableColumns, Js.forEach.
  destruct (forEach_addExtraColumn extras 0
              (staticColumns getCellValue sortingFns_datetime sortingFns_alphanumeric
                 localeCompare ROW_SELECTION_COLUMN_ID showHierarchy options excluded ++
               attributeColumns getCellValue sortingFns_datetime
                 sortingFns_alphanumeric attribs excluded))
    as [Hsub Hperm].
  split; [exact Hsub |]. split; [exact Hperm |].
  by rewrite Hperm, length_app, length_fmap.
Qed.

Lemma addExtraColumn_position (l : list ColumnDef) (col : ColumnDef) (pos : option Z) :
  (∀ p, pos = Some p → 0 ≤ p < Z.of_nat (length l) →
        addExtraColumn l {| column := col; position := pos |} =
          take (Z.to_nat p) l ++ col :: drop (Z.to_nat p) l ∧
        addExtraColumn l {| column := col; position := pos |} !! Z.to_nat p = Some col) ∧
  (pos = None ∨ (∃ p, pos = Some p ∧ (p < 0 ∨ Z.of_nat (length l) ≤ p)) →
   addExtraColumn l {| column := col; position := pos |} = l ++ [col]).
Proof.
  unfold addExtraColumn. cbn [column position]. split.
  - intros p -> Hp. cbn [default from_option Datatypes.id].
    rewrite !bool_decide_eq_true_2 by lia. cbn [andb].
    unfold Js.splice_insert. rewrite bool_decide_eq_false_2 by lia.
    rewrite Z.min_l by lia. split; [done |].
    rewrite lookup_app_r by (rewrite length_take; lia).
    rewrite length_take. by replace (_ - _)%nat with 0%nat by lia.
  - intros [-> | (p & -> & Hp)]; cbn [default from_option Datatypes.id].
    + by rewrite (bool_decide_eq_false_2 (0 ≤ -1)) by lia.
    + destruct Hp.
      * by rewrite (bool_decide_eq_false_2 (0 ≤ p)) by lia.
      * rewrite (bool_decide_eq_false_2 (p < _)) by lia. by rewrite andb_false_r.
Qed.

(** X18.  One extra column whose position is an index of the list built
    without it ends up at that index, the columns before it where they
    were and the others after it; with any other position - none, a negative
    one, or one at or past the end - it is appended. *)
Theorem buildTreeTableColumns_extra_position (attribs : list ProjectTableAttribute)
    (showHierarchy : bool) (options : BuiltInFieldOptions)
    (excluded : option (list string)) (col : ColumnDef) (pos : option Z) :
  let base := build attribs showHierarchy options excluded None in
  let result :=
    build attribs showHierarchy options excluded
      (Some [{| column := col; position := pos |}]) in
  (∀ p, pos = Some p → 0 ≤ p < Z.of_nat (length base) →
        result = take (Z.to_nat p) base ++ col :: drop (Z.to_nat p) base ∧
        result !! Z.to_nat p = Some col) ∧
  (pos = None ∨ (∃ p, pos = Some p ∧ (p < 0 ∨ Z.of_nat (length base) ≤ p)) →
   result = base ++ [col]).
Proof.
  intros base result. apply addExtraColumn_position.
Qed.

#[local] Instance attrib_id_inj : Inj (=) (=) (λ n : string, Some ("attrib_" +:+ n)).
Proof. intros n m [= H]. done. Qed.



(** X19.  Without extra columns the ids of the result are pairwise
    different, provided the schema has no two attributes of the same name
    and the id of the selection column is neither one of the other built-in
    ids nor of the form [attrib_<name>]. *)
Theorem buildTreeTableColumns_ids_NoDup (attribs : list ProjectTableAttribute)
    (showHierarchy : bool) (options : BuiltInFieldOptions)
    (excluded : option (list string)) :
  NoDup (Attribute.name <$> attribs) →
  ROW_SELECTION_COLUMN_ID ∉ ["thumbnail"; "name"; "status"; "subType"; "assignees"; "tags"] →
  (∀ n, ROW_SELECTION_COLUMN_ID ≠ "attrib_" +:+ n) →
  NoDup (Column.id <$> build attribs showHierarchy options excluded None).
Proof.
  intros Hnames Hsel Hprefix. rewrite build_ids. apply NoDup_app.
  split; [| split].
  - apply (NoDup_fmap_2 Some), NoDup_filter. unfold builtInIds.
    apply NoDup_cons. split; [done |]. by apply (bool_decide_unpack _).
  - intros x (y & -> & Hy)%list_elem_of_fmap (a & [= ->] & _)%list_elem_of_fmap.
    apply list_elem_of_filter in Hy as [_ Hy]. unfold builtInIds in Hy.
    apply elem_of_cons in Hy as [Hy | Hy]; [by apply (Hprefix (Attribute.name a)) |].
    repeat (apply elem_of_cons in Hy as [Hy | Hy]; [discriminate Hy |]).
    by apply elem_of_nil in Hy.
  - rewrite (list_fmap_compose Attribute.name (λ n, Some ("attrib_" +:+ n))).
    apply (NoDup_fmap_2 _).
    apply (sublist_NoDup _ (Attribute.name <$> attribs));
      first [exact Hnames | apply fmap_sublist, sublist_filter].
Qed.


End BuilderProperties.

Lemma buildTreeTableColumns_ids_NoDup_witness :
  NoDup (Column.id <$>
           buildTreeTableColumns Sample.cellValue (Sample.constantSort 0)
             (Sample.constantSort 0) (λ _ _, 0) "__row_selection__"
             [Attribute.mk "fps" (Some true) Sample.priority;
              Attribute.mk "priority" None Sample.priority]
             true {| status := Sample.enumABC |} (Some ["tags"]) None).
Proof.
  apply buildTreeTableColumns_ids_NoDup.
  - by apply (bool_decide_unpack _).
  - by apply (bool_decide_unpack _).
  - intros n. discriminate.
Defined.

(** * Properties of the row selection in the URL *)

Section RowSelectionParamProperties.

Import RowSelectionParam.


Lemma split_no_comma (x : string) : hasComma x = false → split x = [x].
Proof.
  induction x as [|c x IH]; simpl; [done |].
  intros [Hc Hx]%orb_false_iff. rewrite Hc. by rewrite IH.
Qed.

Lemma split_piece (x rest : string) :
  hasComma x = false → split (x +:+ String comma rest) = x :: split rest.
Proof.
  induction x as [|c x IH]; simpl.
  - intros _. by rewrite ?bool_decide_eq_true_2.
  - intros [Hc Hx]%orb_false_iff. rewrite Hc. by rewrite IH.
Qed.

Lemma split_join (ids : list string) :
  Forall (λ x, hasComma x = false) ids → ids ≠ [] → split (join ids) = ids.
Proof.
  induction 1 as [|x ids Hx Hids IH]; [done |]. intros _.
  destruct ids as [|y ids]; simpl.
  - by apply split_no_comma.
  - rewrite split_piece by done. f_equal. by apply IH.
Qed.


Lemma join_empty (ids : list string) : join ids = "" → ids = [] ∨ ids = [""].
Proof.
  destruct ids as [|x [|y ids]]; simpl; [by left | intros ->; by right |].
  destruct x; discriminate.
Qed.

Lemma setTrue_keys (acc : RowSelectionState) (rowId : string) :
  (setTrue acc rowId).*1 = if bool_decide (rowId ∈ acc.*1) then acc.*1
                           else acc.*1 ++ [rowId].
Proof.
  induction acc as [|[k v] acc IH]; [done |].
  cbn [setTrue]. destruct (decide (k = rowId)) as [-> | Hne].
  - rewrite (bool_decide_eq_true_2 (rowId = rowId)) by done.
    rewrite (bool_decide_eq_true_2 (rowId ∈ _)) by apply list_elem_of_here.
    done.
  - rewrite (bool_decide_eq_false_2 (k = rowId)) by done.
    rewrite !fmap_cons, IH. cbn [fst].
    destruct (decide (rowId ∈ acc.*1)) as [Hin | Hin].
    + rewrite (bool_decide_eq_true_2 (rowId ∈ acc.*1)) by done.
      by rewrite (bool_decide_eq_true_2 (rowId ∈ _ :: _))
        by by apply list_elem_of_further.
    + rewrite (bool_decide_eq_false_2 (rowId ∈ acc.*1)) by done.
      rewrite (bool_decide_eq_false_2 (rowId ∈ _ :: _)); [done |].
      intros [?|?]%elem_of_cons; by subst.
Qed.

Lemma setTrue_fresh (acc : RowSelectionState) (rowId : string) :
  rowId ∉ acc.*1 → setTrue acc rowId = acc ++ [(rowId, true)].
Proof.
  induction acc as [|[k v] acc IH]; simpl; [done |].
  intros Hin. rewrite bool_decide_eq_false_2.
  - rewrite IH; [done |]. intros ?. apply Hin. by apply list_elem_of_further.
  - intros ->. apply Hin. apply list_elem_of_here.
Qed.

Lemma setTrue_all_true (acc : RowSelectionState) (rowId : string) :
  Forall (λ e, e.2 = true) acc → Forall (λ e, e.2 = true) (setTrue acc rowId).
Proof.
  induction 1 as [|[k v] acc Hv Hacc IH]; simpl; [by repeat constructor |].
  case_bool_decide; by constructor.
Qed.

Lemma foldl_setTrue_fresh (ids : list string) :
  ∀ acc : RowSelectionState,
    NoDup ids → (∀ x, x ∈ ids → x ∉ acc.*1) →
    foldl setTrue acc ids = acc ++ ((λ x, (x, true)) <$> ids).
Proof.
  induction ids as [|x ids IH]; intros acc Hnd Hfresh; simpl.
  - by rewrite app_nil_r.
  - apply NoDup_cons in Hnd as [Hx Hnd].
    rewrite setTrue_fresh by apply Hfresh, list_elem_of_here.
    rewrite IH; [by rewrite <- app_assoc | done |].
    intros y Hy. rewrite fmap_app. simpl.
    intros [Hin | ->%list_elem_of_singleton]%elem_of_app; [| done].
    by apply (Hfresh y); [apply list_elem_of_further |].
Qed.

Lemma foldl_setTrue_invariant (ids : list string) :
  ∀ acc : RowSelectionState,
    NoDup acc.*1 → Forall (λ e, e.2 = true) acc →
    NoDup (foldl setTrue acc ids).*1 ∧
    Forall (λ e, e.2 = true) (foldl setTrue acc ids) ∧
    ∀ x, x ∈ (foldl setTrue acc ids).*1 ↔ x ∈ acc.*1 ∨ x ∈ ids.
Proof.
  induction ids as [|y ids IH]; intros acc Hnd Htrue; simpl.
  - split; [done |]. split; [done |]. intros x. rewrite elem_of_nil. tauto.
  - destruct (IH (setTrue acc y)) as (H1 & H2 & H3).
    + rewrite setTrue_keys. case_bool_decide; [done |].
      apply NoDup_app. split; [done |]. split; [| apply NoDup_singleton].
      intros x Hx ->%list_elem_of_singleton. done.
    + by apply setTrue_all_true.
    + split; [done |]. split; [done |]. intros x. rewrite H3, setTrue_keys.
      case_bool_decide as Hy; rewrite ?elem_of_app, ?list_elem_of_singleton, elem_of_cons.
      * split; [tauto |]. intros [?|[->|?]]; tauto.
      * tauto.
Qed.


(** X21.  A selection survives the round trip through the URL as far as
    its selected rows go: decoding what [encode] produced gives the selected
    ids, in their sequence, each mapped to [true]; entries that were [false]
    are gone.  This needs the selected ids to be free of commas, and the
    selection not to consist of the empty id alone, which encodes to the
    empty string. *)
Theorem decode_encode (rowSelection : RowSelectionState) :
  NoDup rowSelection.*1 →
  Forall (λ x, hasComma x = false) (selectedIdsOf rowSelection) →
  selectedIdsOf rowSelection ≠ [""] →
  decode (asInput (encode (Some rowSelection))) =
    (λ x, (x, true)) <$> selectedIdsOf rowSelection.
Proof.
  intros Hnd Hcomma Hlone. unfold encode.
  destruct (decide (length rowSelection = 0%nat)) as [Hlen | Hlen];
    [rewrite bool_decide_eq_true_2 by done | rewrite bool_decide_eq_false_2 by done].
  - destruct rowSelection; [done | simpl in Hlen; lia].
  - unfold asInput, decode.
    destruct (decide (join (selectedIdsOf rowSelection) = "")) as [Hempty | Hempty].
    + rewrite bool_decide_eq_true_2 by done.
      apply join_empty in Hempty as [-> | ?]; done.
    + rewrite bool_decide_eq_false_2 by done.
      assert (selectedIdsOf rowSelection ≠ []) as Hne by (by intros Heq; rewrite Heq in Hempty).
      rewrite split_join by done.
      rewrite foldl_setTrue_fresh; [done | |].
      * unfold selectedIdsOf. apply (sublist_NoDup _ rowSelection.*1);
          first [exact Hnd | apply fmap_sublist, sublist_filter].
      * intros x _ Hx. by apply elem_of_nil in Hx.
Qed.

Lemma decode_encode_witness :
  decode (asInput (encode (Some [("list-a", true); ("list-b", false); ("list-c", true)]))) =
    [("list-a", true); ("list-c", true)].
Proof.
  apply (decode_encode [("list-a", true); ("list-b", false); ("list-c", true)]).
  - by apply (bool_decide_unpack _).
  - by apply (bool_decide_unpack _).
  - discriminate.
Defined.



(** X23.  Whatever it is given, [decode] yields a selection in which every
    entry is [true] and no id occurs twice; the ids are exactly the pieces
    of the string between commas.  Nothing, the empty string, an empty
    array and an array beginning with [null] all give the empty selection,
    and of an array only the first element counts. *)
Theorem decode_selects_pieces (input : QueryInput) :
  Forall (λ e, e.2 = true) (decode input) ∧
  NoDup (decode input).*1 ∧
  (∀ str, str ≠ "" → ∀ x, x ∈ (decode (QString str)).*1 ↔ x ∈ split str) ∧
  decode QNone = [] ∧ decode (QString "") = [] ∧
  decode (QArray []) = [] ∧
  (∀ rest, decode (QArray (None :: rest)) = []) ∧
  (∀ str rest, decode (QArray (Some str :: rest)) = decode (QString str)).
Proof.
  assert (Hdec : ∀ str, str ≠ "" → decode (QString str) = foldl setTrue [] (split str)).
  { intros str Hstr. unfold decode. by rewrite bool_decide_eq_false_2. }
  assert (Hinv : ∀ i, Forall (λ e, e.2 = true) (decode i) ∧ NoDup (decode i).*1).
  { intros i. unfold decode.
    destruct (match i with QString s => Some s | QArray items => mjoin (items !! 0%nat)
                         | QNone => None end) as [s|];
      [| split; constructor].
    case_bool_decide; [split; constructor |].
    destruct (foldl_setTrue_invariant (split s) []) as (H1 & H2 & _);
      [constructor | constructor | done]. }
  split; [apply Hinv |]. split; [apply Hinv |]. split; [| done].
  intros str Hstr x. rewrite Hdec by done.
  destruct (foldl_setTrue_invariant (split str) []) as (_ & _ & H3);
    [constructor | constructor |].
  rewrite H3. simpl. rewrite elem_of_nil. tauto.
Qed.

End RowSelectionParamProperties.

(** * Properties of the list item paths *)

(** X24.  For a version item [extractPath] gives the path of the product's
    folder when there is a non-empty one, whatever the task; otherwise it
    gives the name of the task alone, and the text [undefined] when the item
    has no task or the task no name - not the empty string, and never the
    folder path and the task name together.  For an entity type other than
    folder, task, product and version the path is empty. *)
Theorem extractPath_version (item : ListItem.t) :
  let folderOfProduct :=
    (ListItem.product item ≫= ListItem.productFolder) ≫= ListItem.folderPath in
  let nameOfTask := ListItem.task item ≫= ListItem.taskName in
  (∀ s, folderOfProduct = Some s → s ≠ "" →
        ListItem.extractPath item "version" = s) ∧
  (folderOfProduct = None ∨ folderOfProduct = Some "" →
   (nameOfTask = None → ListItem.extractPath item "version" = "undefined") ∧
   (∀ n, nameOfTask = Some n → ListItem.extractPath item "version" = n)) ∧
  (∀ entityType, entityType ∉ ["folder"; "task"; "product"; "version"] →
                 ListItem.extractPath item entityType = "").
Proof.
  intros folderOfProduct nameOfTask. unfold ListItem.extractPath.
  fold folderOfProduct nameOfTask. split; [| split].
  - intros s -> Hs. simpl. by rewrite bool_decide_eq_false_2.
  - intros Hfolder. split.
    + intros ->. by destruct Hfolder as [-> | ->].
    + intros n ->. destruct Hfolder as [-> | ->]; simpl;
        case_bool_decide; by subst.
  - intros entityType Hty.
    rewrite !bool_decide_eq_false_2; [done | | | |];
      intros ->; apply Hty; by apply (bool_decide_unpack _).
Qed.

Lemma extractPath_version_witness :
  ListItem.extractPath
    {| ListItem.path := None; ListItem.folder := None;
       ListItem.product := Some {| ListItem.productFolder := None |};
       ListItem.task := None |} "version" = "undefined" ∧
  ListItem.extractPath
    {| ListItem.path := None; ListItem.folder := None;
       ListItem.product :=
         Some {| ListItem.productFolder := Some {| ListItem.folderPath := Some "assets/hero" |} |};
       ListItem.task := Some {| ListItem.taskName := Some "modeling" |} |} "version" =
    "assets/hero".
Proof.
  split.
  - refine (proj1 (proj1 (proj2 (extractPath_version _)) _) _); [by left | done].
  - refine (proj1 (extractPath_version _) _ _ _); [done | discriminate].
Defined.

(** * Examples for the column builder *)

Lemma buildTreeTableColumns_extra_position_witness :
  let build :=
    buildTreeTableColumns Sample.cellValue (Sample.constantSort 0)
      (Sample.constantSort 0) (λ _ _, 0) "__row_selection__"
      [] true {| status := [] |} (Some ["thumbnail"; "assignees"; "tags"]) in
  let removeFromList := plainColumn "remove" in
  Column.id <$> build (Some [{| column := removeFromList; position := Some 1 |}]) =
    [Some "__row_selection__"; Some "remove"; Some "name"; Some "status"; Some "subType"] ∧
  Column.id <$> build (Some [{| column := removeFromList; position := Some 4 |}]) =
    [Some "__row_selection__"; Some "name"; Some "status"; Some "subType"; Some "remove"].
Proof.
  intros build removeFromList. split.
  - destruct (buildTreeTableColumns_extra_position Sample.cellValue (Sample.constantSort 0)
                (Sample.constantSort 0) (λ _ _, 0) "__row_selection__"
                [] true {| status := [] |} (Some ["thumbnail"; "assignees"; "tags"])
                removeFromList (Some 1)) as [Hin _].
    destruct (Hin 1 eq_refl) as [Heq _]; [vm_compute; by split |].
    unfold build. rewrite Heq. reflexivity.
  - destruct (buildTreeTableColumns_extra_position Sample.cellValue (Sample.constantSort 0)
                (Sample.constantSort 0) (λ _ _, 0) "__row_selection__"
                [] true {| status := [] |} (Some ["thumbnail"; "assignees"; "tags"])
                removeFromList (Some 4)) as [_ Hout].
    unfold build. rewrite Hout; [reflexivity |].
    right. exists 4. split; [done |]. right. vm_compute. discriminate.
Defined.

